(** * The game-mode stack of [src/engine/mode_manager.cpp]

    A shallow embedding of [hoa_mode_manager::ModeEngine]: the live stack
    of game modes, the buffer of pending pushes, the pop counter and the
    fade flags, together with the calls the engine makes on its
    collaborators (video, system, the modes themselves), recorded as a
    chronological trace of events.

    A call into a mode ([Reset()], [Update()], [Draw()], its destructor) is
    an event and nothing more: what a mode asks of the engine from inside
    its own [Update()] is, for the engine, a request made before the next
    [ModeEngine::Update()]. *)

From Stdlib Require Import List Bool NArith Arith Lia Permutation.
From Stdlib Require String.
From Equations Require Import Equations.
From Equations.Prop Require Import Logic.
Import ListNotations.

Set Implicit Arguments.

(** ** Machine integers *)

Definition uint8 := N.
Definition uint32 := N.

Definition UINT32_MODULUS : N := 2 ^ 32.

(** [static_cast<uint32>(n)] and the result of unsigned 32-bit arithmetic. *)
Definition to_uint32 (n : N) : uint32 := (n mod UINT32_MODULUS)%N.

(** [x++] on a [uint32]. *)
Definition uint32_incr (x : uint32) : uint32 := to_uint32 (x + 1).

(** [x--] on a [uint32]: [0 - 1] wraps around to [2^32 - 1]. *)
Definition uint32_decr (x : uint32) : uint32 :=
  to_uint32 (x + UINT32_MODULUS - 1).

(** [const uint32 FADE_IN_OUT_TIME = 800;] *)
Definition FADE_IN_OUT_TIME : uint32 := 800%N.

(** ** Game modes

    A [GameMode*] held by the engine is modelled by the object it points
    to: its address (the identity of the mode) and its [mode_type] tag.
    [Push] is only ever handed a valid object; [NULL] appears in the model
    as the [None] returned by [GetTop] and [Get]. *)

Record GameMode : Type := mkGameMode {
  address : N;
  mode_type : uint8
}.

(** ** Collaborators *)

Inductive Color : Type := black.

(** What [VideoManager] answers when [Update] queries it. *)
Record VideoEngine : Type := mkVideo {
  IsLastFadeTransitional : bool;
  IsFading : bool
}.

(** Calls that leave the engine, in the order they are made. *)
Inductive event : Type :=
| StartTransitionFadeOut (c : Color) (time : uint32)
| TransitionalFadeIn (time : uint32)
| PrintWarning (msg : String.string)
| Delete (gm : GameMode)
| ExitGame
| Reset (gm : GameMode)
| ModeUpdate (gm : GameMode)
| ModeDraw (gm : GameMode)
| ModeDrawEffects (gm : GameMode)
| ModeDrawPostEffects (gm : GameMode)
| ExamineSystemTimers
| InitializeUpdateTimer.

Definition is_Reset (e : event) : bool :=
  match e with Reset _ => true | _ => false end.

(** The modes destroyed along a trace, in order of destruction. *)
Definition deleted (tr : list event) : list GameMode :=
  flat_map (fun e => match e with Delete g => [g] | _ => [] end) tr.

(** ** The engine *)

Record ModeEngine : Type := mkEngine {
  _game_stack : list GameMode;   (* std::vector<GameMode*>: front first, back last *)
  _push_stack : list GameMode;   (* std::vector<GameMode*> *)
  _state_change : bool;
  _pop_count : uint32;
  _fade_out : bool;
  _fade_in : bool;
  _fade_out_finished : bool
}.

Definition set_game_stack (v : list GameMode) (s : ModeEngine) : ModeEngine :=
  mkEngine v (_push_stack s) (_state_change s) (_pop_count s)
           (_fade_out s) (_fade_in s) (_fade_out_finished s).

Definition set_push_stack (v : list GameMode) (s : ModeEngine) : ModeEngine :=
  mkEngine (_game_stack s) v (_state_change s) (_pop_count s)
           (_fade_out s) (_fade_in s) (_fade_out_finished s).

Definition set_state_change (b : bool) (s : ModeEngine) : ModeEngine :=
  mkEngine (_game_stack s) (_push_stack s) b (_pop_count s)
           (_fade_out s) (_fade_in s) (_fade_out_finished s).

Definition set_pop_count (n : uint32) (s : ModeEngine) : ModeEngine :=
  mkEngine (_game_stack s) (_push_stack s) (_state_change s) n
           (_fade_out s) (_fade_in s) (_fade_out_finished s).

Definition set_fade_out (b : bool) (s : ModeEngine) : ModeEngine :=
  mkEngine (_game_stack s) (_push_stack s) (_state_change s) (_pop_count s)
           b (_fade_in s) (_fade_out_finished s).

Definition set_fade_in (b : bool) (s : ModeEngine) : ModeEngine :=
  mkEngine (_game_stack s) (_push_stack s) (_state_change s) (_pop_count s)
           (_fade_out s) b (_fade_out_finished s).

Definition set_fade_out_finished (b : bool) (s : ModeEngine) : ModeEngine :=
  mkEngine (_game_stack s) (_push_stack s) (_state_change s) (_pop_count s)
           (_fade_out s) (_fade_in s) b.

(** The counter is a [uint32]. *)
Definition pop_count_in_range (s : ModeEngine) : Prop :=
  (_pop_count s < UINT32_MODULUS)%N.

(** ** std::vector *)

Definition vector_empty {A} (v : list A) : bool :=
  match v with [] => true | _ :: _ => false end.

(** [v.back()]: undefined on an empty vector ([None]). *)
Definition vector_back {A} (v : list A) : option A :=
  match v with [] => None | x :: r => Some (last r x) end.

(** [v.pop_back()]: undefined on an empty vector ([None]). *)
Definition vector_pop_back {A} (v : list A) : option (list A) :=
  match v with [] => None | _ :: _ => Some (removelast v) end.

Definition vector_push_back {A} (v : list A) (x : A) : list A := v ++ [x].

(** [v.at(n)] either yields the element or throws [std::out_of_range]. *)
Inductive checked (A : Type) : Type :=
| Value (a : A)
| out_of_range.
Arguments out_of_range {A}.

Definition vector_at {A} (v : list A) (n : N) : checked A :=
  match nth_error v (N.to_nat n) with
  | Some x => Value x
  | None => out_of_range
  end.

(** ** Running engine code

    A member function transforms the engine and extends the trace.  It
    either returns, or reaches undefined behaviour (a [back()] or
    [pop_back()] on an empty vector); in the second case the engine and the
    trace are those at the offending call. *)

Inductive outcome (A : Type) : Type :=
| Returns (a : A) (s : ModeEngine) (tr : list event)
| Undefined (s : ModeEngine) (tr : list event).
Arguments Undefined {A}.

Definition M (A : Type) : Type := ModeEngine -> list event -> outcome A.

Definition ret {A} (a : A) : M A := fun s tr => Returns a s tr.

Definition bind {A B} (m : M A) (k : A -> M B) : M B :=
  fun s tr =>
    match m s tr with
    | Returns a s' tr' => k a s' tr'
    | Undefined s' tr' => Undefined s' tr'
    end.

Declare Scope engine_scope.
Delimit Scope engine_scope with engine.
Notation "x <- m ;; k" := (bind m (fun x => k))
  (at level 61, m at next level, right associativity) : engine_scope.
Notation "m ;; k" := (bind m (fun _ => k))
  (at level 61, right associativity) : engine_scope.
Local Open Scope engine_scope.

Definition get : M ModeEngine := fun s tr => Returns s s tr.
Definition modify (f : ModeEngine -> ModeEngine) : M unit :=
  fun s tr => Returns tt (f s) tr.
Definition emit (e : event) : M unit :=
  fun s tr => Returns tt s (tr ++ [e]).
Definition undefined_behaviour {A} : M A := fun s tr => Undefined s tr.
Definition when (b : bool) (m : M unit) : M unit := if b then m else ret tt.

Definition final_state {A} (o : outcome A) : ModeEngine :=
  match o with Returns _ s _ => s | Undefined s _ => s end.

Definition trace_of {A} (o : outcome A) : list event :=
  match o with Returns _ _ tr => tr | Undefined _ tr => tr end.

Definition returned {A} (o : outcome A) : bool :=
  match o with Returns _ _ _ => true | Undefined _ _ => false end.

(** [_game_stack.back()] *)
Definition game_stack_back : M GameMode :=
  s <- get ;;
  match vector_back (_game_stack s) with
  | Some gm => ret gm
  | None => undefined_behaviour
  end.

(** [_game_stack.pop_back()] *)
Definition game_stack_pop_back : M unit :=
  s <- get ;;
  match vector_pop_back (_game_stack s) with
  | Some v => modify (set_game_stack v)
  | None => undefined_behaviour
  end.

(** [_push_stack.back()] *)
Definition push_stack_back : M GameMode :=
  s <- get ;;
  match vector_back (_push_stack s) with
  | Some gm => ret gm
  | None => undefined_behaviour
  end.

(** [_push_stack.pop_back()] *)
Definition push_stack_pop_back : M unit :=
  s <- get ;;
  match vector_pop_back (_push_stack s) with
  | Some v => modify (set_push_stack v)
  | None => undefined_behaviour
  end.

(** ** Requests *)

(** The texts handed to [PRINT_WARNING]. *)
Module Messages.
Import String.
Local Open Scope string_scope.
Definition popped_too_many : string :=
  "Tried to pop off more game modes than were on the stack!".
Definition stack_is_empty : string :=
  "game stack is empty, exiting application".
End Messages.

(** [void ModeEngine::Pop(bool fade_out, bool fade_in)] *)
Definition Pop (fade_out fade_in : bool) : M unit :=
  modify (set_fade_in fade_in) ;;
  modify (fun s => set_pop_count (uint32_incr (_pop_count s)) s) ;;
  modify (set_state_change true) ;;
  if fade_out then
    emit (StartTransitionFadeOut black FADE_IN_OUT_TIME) ;;
    modify (set_fade_out true) ;;
    modify (set_fade_out_finished false)
  else
    modify (set_fade_out false) ;;
    modify (set_fade_out_finished true).

(** [void ModeEngine::PopAll()] *)
Definition PopAll : M unit :=
  modify (fun s =>
    set_pop_count (to_uint32 (N.of_nat (length (_game_stack s)))) s).

(** [void ModeEngine::Push(GameMode* gm, bool fade_out, bool fade_in)] *)
Definition Push (gm : GameMode) (fade_out fade_in : bool) : M unit :=
  modify (fun s => set_push_stack (vector_push_back (_push_stack s) gm) s) ;;
  modify (set_state_change true) ;;
  modify (set_fade_in fade_in) ;;
  if fade_out then
    emit (StartTransitionFadeOut black FADE_IN_OUT_TIME) ;;
    modify (set_fade_out true) ;;
    modify (set_fade_out_finished false)
  else
    modify (set_fade_out false) ;;
    modify (set_fade_out_finished true).

(** ** Lookups

    The lookups do not change the engine; they are functions of it.  The
    indexed ones go through [vector::at], which may throw. *)

(** [GameMode* ModeEngine::GetTop()]; [None] is [NULL]. *)
Definition GetTop (s : ModeEngine) : option GameMode :=
  if vector_empty (_game_stack s) then None
  else vector_back (_game_stack s).

(** [GameMode* ModeEngine::Get(uint32 index)]; [None] is [NULL].  The
    comparison and the subtraction are made in [size_t]. *)
Definition Get (s : ModeEngine) (index : uint32) : checked (option GameMode) :=
  let size := N.of_nat (length (_game_stack s)) in
  if (size <? index)%N then Value None
  else
    match vector_at (_game_stack s) (size - index) with
    | Value gm => Value (Some gm)
    | out_of_range => out_of_range
    end.

Section Sentinel.

(** The tag [MODE_MANAGER_DUMMY_MODE] is declared in [mode_manager.h].
    The engine never tests it, it only hands it out, so its value is left
    open. *)
Variable MODE_MANAGER_DUMMY_MODE : uint8.

(** [GameMode::GameMode()] at a given address. *)
Definition GameMode_default (addr : N) : GameMode :=
  mkGameMode addr MODE_MANAGER_DUMMY_MODE.

(** [uint8 ModeEngine::GetGameType()] *)
Definition GetGameType (s : ModeEngine) : uint8 :=
  if vector_empty (_game_stack s) then MODE_MANAGER_DUMMY_MODE
  else
    match vector_back (_game_stack s) with
    | Some gm => mode_type gm
    | None => MODE_MANAGER_DUMMY_MODE (* not reached: the vector is not empty *)
    end.

(** [uint8 ModeEngine::GetGameType(uint32 index)] *)
Definition GetGameType_at (s : ModeEngine) (index : uint32) : checked uint8 :=
  let size := N.of_nat (length (_game_stack s)) in
  if (size <? index)%N then Value MODE_MANAGER_DUMMY_MODE
  else
    match vector_at (_game_stack s) (size - index) with
    | Value gm => Value (mode_type gm)
    | out_of_range => out_of_range
    end.

(** The tag a caller reads off a pointer returned by [Get] or [GetTop]:
    the sentinel for [NULL], the mode's own tag otherwise. *)
Definition tag_of (p : option GameMode) : uint8 :=
  match p with
  | Some gm => mode_type gm
  | None => MODE_MANAGER_DUMMY_MODE
  end.

End Sentinel.

(** ** Reconciliation *)

(** One pass through [while (_pop_count != 0) { ... }]: either the loop is
    left ([inl]), or the body ran to its end and the test is made again on
    the new engine and trace ([inr]). *)
Definition pop_loop_pass (s : ModeEngine) (tr : list event)
  : outcome unit + ModeEngine * list event :=
  if (_pop_count s =? 0)%N then inl (Returns tt s tr)
  else if vector_empty (_game_stack s) then
    inl ((emit (PrintWarning Messages.popped_too_many) ;;
          modify (set_pop_count 0%N)) s tr)
  else
    match (gm <- game_stack_back ;;
           emit (Delete gm) ;;
           game_stack_pop_back ;;
           modify (fun s => set_pop_count (uint32_decr (_pop_count s)) s)) s tr
    with
    | Returns _ s' tr' => inr (s', tr')
    | Undefined s' tr' => inl (Undefined s' tr')
    end.

(** [while (_pop_count != 0) { ... }]: every pass that does not leave the
    loop takes one mode off the live stack. *)
Equations? pop_loop (s : ModeEngine) (tr : list event) : outcome unit
  by wf (length (_game_stack s)) lt :=
  pop_loop s tr with inspect (pop_loop_pass s tr) := {
    | exist _ (inl o) _ := o
    | exist _ (inr (s', tr')) H := pop_loop s' tr' }.
Proof.
  revert H. unfold pop_loop_pass.
  destruct (_pop_count s =? 0)%N; [discriminate|].
  destruct s as [gs ps sc pc fo fi ff]; cbn -[removelast].
  destruct gs as [|g gs]; cbn -[removelast]; [discriminate|].
  intros H; injection H as <- _; cbn -[removelast].
  rewrite removelast_firstn_len.
  destruct gs; cbn [length]; [lia|].
  rewrite length_firstn. cbn [length]. lia.
Defined.

(** One pass through [while (_push_stack.size() != 0) { ... }]. *)
Definition push_loop_pass (s : ModeEngine) (tr : list event)
  : outcome unit + ModeEngine * list event :=
  if (N.of_nat (length (_push_stack s)) =? 0)%N then inl (Returns tt s tr)
  else
    match (gm <- push_stack_back ;;
           modify (fun s =>
             set_game_stack (vector_push_back (_game_stack s) gm) s) ;;
           push_stack_pop_back) s tr
    with
    | Returns _ s' tr' => inr (s', tr')
    | Undefined s' tr' => inl (Undefined s' tr')
    end.

(** [while (_push_stack.size() != 0) { ... }]: every pass that does not
    leave the loop takes one mode off the pending buffer. *)
Equations? push_loop (s : ModeEngine) (tr : list event) : outcome unit
  by wf (length (_push_stack s)) lt :=
  push_loop s tr with inspect (push_loop_pass s tr) := {
    | exist _ (inl o) _ := o
    | exist _ (inr (s', tr')) H := push_loop s' tr' }.
Proof.
  revert H. unfold push_loop_pass.
  destruct s as [gs ps sc pc fo fi ff]; cbn -[removelast N.of_nat].
  destruct ps as [|p ps]; cbn -[removelast N.of_nat]; [discriminate|].
  destruct (N.of_nat (S (length ps)) =? 0)%N; [discriminate|].
  intros H; injection H as <- _; cbn -[removelast].
  rewrite removelast_firstn_len.
  destruct ps; cbn [length]; [lia|].
  rewrite length_firstn. cbn [length]. lia.
Defined.

(** The body of [if (_fade_out_finished && _state_change) { ... }].

    [SystemManager->ExitGame()] is defined in [engine/system.h]; it is
    taken, as the spec's [RequestExit()] shutdown hook, to record the
    request and return to its caller. *)
Definition commit : M unit :=
  pop_loop ;;
  push_loop ;;
  s <- get ;;
  when (vector_empty (_game_stack s))
       (emit (PrintWarning Messages.stack_is_empty) ;;
        emit ExitGame) ;;
  gm <- game_stack_back ;;
  emit (Reset gm) ;;
  modify (set_state_change false) ;;
  modify (set_fade_out_finished false) ;;
  s <- get ;;
  emit (TransitionalFadeIn (if _fade_in s then FADE_IN_OUT_TIME else 0%N)) ;;
  emit ExamineSystemTimers ;;
  emit InitializeUpdateTimer.

(** The first statement of [Update]: check whether the fade out is done. *)
Definition check_fade_out (video : VideoEngine) : M unit :=
  s <- get ;;
  when (_fade_out s && IsLastFadeTransitional video && negb (IsFading video))
       (modify (set_fade_out false) ;;
        modify (set_fade_out_finished true)).

(** The last statement of [Update]: update the active game mode. *)
Definition update_top : M unit :=
  s <- get ;;
  when (negb (vector_empty (_game_stack s)))
       (gm <- game_stack_back ;; emit (ModeUpdate gm)).

(** [void ModeEngine::Update()] *)
Definition Update (video : VideoEngine) : M unit :=
  check_fade_out video ;;
  s <- get ;;
  when (_fade_out_finished s && _state_change s) commit ;;
  update_top.

(** [void ModeEngine::Draw()] *)
Definition Draw : M unit :=
  s <- get ;;
  if vector_empty (_game_stack s) then ret tt
  else gm <- game_stack_back ;; emit (ModeDraw gm).

(** [void ModeEngine::DrawEffects()] *)
Definition DrawEffects : M unit :=
  s <- get ;;
  if vector_empty (_game_stack s) then ret tt
  else gm <- game_stack_back ;; emit (ModeDrawEffects gm).

(** [void ModeEngine::DrawPostEffects()] *)
Definition DrawPostEffects : M unit :=
  s <- get ;;
  if vector_empty (_game_stack s) then ret tt
  else gm <- game_stack_back ;; emit (ModeDrawPostEffects gm).

(** [ModeEngine::ModeEngine()]: [_fade_in] is not initialised; both
    vectors start empty. *)
Definition ModeEngine_new (fade_in_garbage : bool) : ModeEngine :=
  mkEngine [] [] false 0%N false fade_in_garbage false.

(** ** Frames

    The requests a client makes between two calls of [Update]. *)

Inductive request : Type :=
| ReqPush (gm : GameMode) (fade_out fade_in : bool)
| ReqPop (fade_out fade_in : bool)
| ReqPopAll.

Definition run_request (r : request) : M unit :=
  match r with
  | ReqPush gm fo fi => Push gm fo fi
  | ReqPop fo fi => Pop fo fi
  | ReqPopAll => PopAll
  end.

Fixpoint run_requests (rs : list request) : M unit :=
  match rs with
  | [] => ret tt
  | r :: rs' => run_request r ;; run_requests rs'
  end.

(** The modes handed to [Push] by a list of requests, in call order. *)
Fixpoint pushed (rs : list request) : list GameMode :=
  match rs with
  | [] => []
  | ReqPush gm _ _ :: rs' => gm :: pushed rs'
  | _ :: rs' => pushed rs'
  end.

(** The fade arguments of a [Push] or [Pop]. *)
Definition fade_arguments (r : request) : option (bool * bool) :=
  match r with
  | ReqPush _ fo fi => Some (fo, fi)
  | ReqPop fo fi => Some (fo, fi)
  | ReqPopAll => None
  end.

(** Whether [Update] enters the commit branch: the test
    [_fade_out_finished && _state_change] as it stands after the fade
    check. *)
Definition commits (video : VideoEngine) (s : ModeEngine) : bool :=
  let s1 := final_state (check_fade_out video s []) in
  _fade_out_finished s1 && _state_change s1.

(** [Update] called once per element of [videos], each element being what
    the video manager answers during that call. *)
Fixpoint Updates (videos : list VideoEngine) : M unit :=
  match videos with
  | [] => ret tt
  | video :: rest => Update video ;; Updates rest
  end.

(** The live stack once [n] modes have been popped off it. *)
Definition popped (n : N) (v : list GameMode) : list GameMode :=
  firstn (length v - N.to_nat n) v.

Definition sample_A : GameMode := mkGameMode 1%N 10%N.
Definition sample_B : GameMode := mkGameMode 2%N 20%N.
Definition sample_C : GameMode := mkGameMode 3%N 30%N.
Definition no_fade : VideoEngine := mkVideo false false.
Definition fading : VideoEngine := mkVideo true true.

(** An idle engine (no request pending) whose live stack is [v]. *)
Definition idle (v : list GameMode) : ModeEngine :=
  mkEngine v [] false 0%N false false false.

(** What the pop loop sends out for a counter [n] and a live stack [v]: the
    destruction of the modes it takes off, top first, then the warning when
    the counter exceeded the depth. *)
Definition pop_events (n : N) (v : list GameMode) : list event :=
  map Delete (rev (skipn (length v - N.to_nat n) v)) ++
  (if (N.of_nat (length v) <? n)%N
   then [PrintWarning Messages.popped_too_many] else []).

(** What the commit branch sends out once the loops are done and the live
    stack is not empty. *)
Definition activation_events (top : GameMode) (fade_in : bool) : list event :=
  [Reset top;
   TransitionalFadeIn (if fade_in then FADE_IN_OUT_TIME else 0%N);
   ExamineSystemTimers;
   InitializeUpdateTimer].

(** The engine as the fade check at the head of [Update] leaves it. *)
Definition after_fade_check (video : VideoEngine) (s : ModeEngine) : ModeEngine :=
  if _fade_out s && IsLastFadeTransitional video && negb (IsFading video)
  then set_fade_out_finished true (set_fade_out false s)
  else s.

(** The live stack a commit produces: the pops taken off the old stack,
    then the pending buffer emptied from its back. *)
Definition reconciled (s : ModeEngine) : list GameMode :=
  popped (_pop_count s) (_game_stack s) ++ rev (_push_stack s).

(** What the last statement of [Update] sends out. *)
Definition update_events (v : list GameMode) : list event :=
  match vector_back v with
  | Some gm => [ModeUpdate gm]
  | None => []
  end.

(** What a [Push] or [Pop] sends out. *)
Definition fade_out_events (fade_out : bool) : list event :=
  if fade_out then [StartTransitionFadeOut black FADE_IN_OUT_TIME] else [].

(** ** Tearing the engine down

    [SingletonInitialize] and the destructor empty both vectors with the
    same two loops.  The lines they print under [MODE_MANAGER_DEBUG] are
    not part of the trace. *)

(** One pass through
    [while (_game_stack.size() != 0) { delete _game_stack.back(); _game_stack.pop_back(); }]. *)
Definition delete_game_stack_pass (s : ModeEngine) (tr : list event)
  : outcome unit + ModeEngine * list event :=
  if (N.of_nat (length (_game_stack s)) =? 0)%N then inl (Returns tt s tr)
  else
    match (gm <- game_stack_back ;;
           emit (Delete gm) ;;
           game_stack_pop_back) s tr
    with
    | Returns _ s' tr' => inr (s', tr')
    | Undefined s' tr' => inl (Undefined s' tr')
    end.

Equations? delete_game_stack (s : ModeEngine) (tr : list event) : outcome unit
  by wf (length (_game_stack s)) lt :=
  delete_game_stack s tr with inspect (delete_game_stack_pass s tr) := {
    | exist _ (inl o) _ := o
    | exist _ (inr (s', tr')) H := delete_game_stack s' tr' }.
Proof.
  revert H. unfold delete_game_stack_pass.
  destruct s as [gs ps sc pc fo fi ff]; cbn -[removelast N.of_nat].
  destruct gs as [|g gs]; cbn -[removelast N.of_nat]; [discriminate|].
  destruct (N.of_nat (S (length gs)) =? 0)%N; [discriminate|].
  intros H; injection H as <- _; cbn -[removelast].
  rewrite removelast_firstn_len.
  destruct gs; cbn [length]; [lia|].
  rewrite length_firstn. cbn [length]. lia.
Defined.

(** One pass through
    [while (_push_stack.size() != 0) { delete _push_stack.back(); _push_stack.pop_back(); }]. *)
Definition delete_push_stack_pass (s : ModeEngine) (tr : list event)
  : outcome unit + ModeEngine * list event :=
  if (N.of_nat (length (_push_stack s)) =? 0)%N then inl (Returns tt s tr)
  else
    match (gm <- push_stack_back ;;
           emit (Delete gm) ;;
           push_stack_pop_back) s tr
    with
    | Returns _ s' tr' => inr (s', tr')
    | Undefined s' tr' => inl (Undefined s' tr')
    end.

Equations? delete_push_stack (s : ModeEngine) (tr : list event) : outcome unit
  by wf (length (_push_stack s)) lt :=
  delete_push_stack s tr with inspect (delete_push_stack_pass s tr) := {
    | exist _ (inl o) _ := o
    | exist _ (inr (s', tr')) H := delete_push_stack s' tr' }.
Proof.
  revert H. unfold delete_push_stack_pass.
  destruct s as [gs ps sc pc fo fi ff]; cbn -[removelast N.of_nat].
  destruct ps as [|p ps]; cbn -[removelast N.of_nat]; [discriminate|].
  destruct (N.of_nat (S (length ps)) =? 0)%N; [discriminate|].
  intros H; injection H as <- _; cbn -[removelast].
  rewrite removelast_firstn_len.
  destruct ps; cbn [length]; [lia|].
  rewrite length_firstn. cbn [length]. lia.
Defined.

(** [bool ModeEngine::SingletonInitialize()] *)
Definition SingletonInitialize : M bool :=
  delete_game_stack ;;
  delete_push_stack ;;
  modify (set_pop_count 0%N) ;;
  ret true.

(** [ModeEngine::~ModeEngine()] *)
Definition ModeEngine_delete : M unit :=
  delete_game_stack ;;
  delete_push_stack.

(** ** Whole runs

    What the frame driver and the clients do to an engine, call by call. *)

Inductive draw_call : Type := CallDraw | CallDrawEffects | CallDrawPostEffects.

Definition run_draw (d : draw_call) : M unit :=
  match d with
  | CallDraw => Draw
  | CallDrawEffects => DrawEffects
  | CallDrawPostEffects => DrawPostEffects
  end.

Fixpoint run_draws (ds : list draw_call) : M unit :=
  match ds with
  | [] => ret tt
  | d :: ds' => run_draw d ;; run_draws ds'
  end.

(** The call a draw function forwards to the active mode. *)
Definition draw_event (d : draw_call) (gm : GameMode) : event :=
  match d with
  | CallDraw => ModeDraw gm
  | CallDrawEffects => ModeDrawEffects gm
  | CallDrawPostEffects => ModeDrawPostEffects gm
  end.

Inductive step : Type :=
| DoRequest (r : request)
| DoUpdate (video : VideoEngine)
| DoDraw (d : draw_call).

Definition run_step (st : step) : M unit :=
  match st with
  | DoRequest r => run_request r
  | DoUpdate video => Update video
  | DoDraw d => run_draw d
  end.

Fixpoint run_steps (sts : list step) : M unit :=
  match sts with
  | [] => ret tt
  | st :: sts' => run_step st ;; run_steps sts'
  end.

(** How the flags and the buffers of an engine hang together: the counter
    is a [uint32]; a pending push or a fade-out in progress comes with a
    pending state change; and the fade-out counts as finished exactly when
    a state change is pending and no fade-out is in progress. *)
Definition consistent (s : ModeEngine) : bool :=
  (_pop_count s <? UINT32_MODULUS)%N &&
  (vector_empty (_push_stack s) || _state_change s) &&
  (negb (_fade_out s) || _state_change s) &&
  Bool.eqb (_fade_out_finished s) (_state_change s && negb (_fade_out s)).

(** The number of [Pop] calls among requests. *)
Fixpoint pops (rs : list request) : nat :=
  match rs with
  | [] => 0
  | ReqPop _ _ :: rs' => S (pops rs')
  | _ :: rs' => pops rs'
  end.

Fixpoint has_PopAll (rs : list request) : bool :=
  match rs with
  | [] => false
  | ReqPopAll :: _ => true
  | _ :: rs' => has_PopAll rs'
  end.

(** The number of [Push] and [Pop] calls that ask for a fade-out. *)
Fixpoint fade_outs (rs : list request) : nat :=
  match rs with
  | [] => 0
  | r :: rs' =>
      match fade_arguments r with
      | Some (true, _) => S (fade_outs rs')
      | _ => fade_outs rs'
      end
  end.

Definition is_ModeUpdate (e : event) : bool :=
  match e with ModeUpdate _ => true | _ => false end.

Definition is_TransitionalFadeIn (e : event) : bool :=
  match e with TransitionalFadeIn _ => true | _ => false end.

Definition is_PrintWarning (e : event) : bool :=
  match e with PrintWarning _ => true | _ => false end.

Definition is_ExitGame (e : event) : bool :=
  match e with ExitGame => true | _ => false end.

(** * The skill graph window ([menu_skillgraph_window.cpp])

    The integer logic of the window: the membership test used by the
    navigation, the resetting of the selected node, and the checks that
    guard the purchase of a skill node.  The view, the drawing and the
    navigation compute on floats and are not modelled; a call to them is
    recorded as such. *)

Module SkillGraphWindow.

(** [std::numeric_limits<uint32_t>::max()] *)
Definition UINT32_MAX : uint32 := (UINT32_MODULUS - 1)%N.

(** The names handed to [GlobalMedia::PlaySound] and the text of the
    warning. *)
Module Texts.
Import String.
Local Open Scope string_scope.
Definition bump : string := "bump".
Definition confirm : string := "confirm".
Definition empty_view : string := "Empty Skill Graph View".
End Texts.

(** [static bool isNodeWithin(const std::vector<uint32_t>& node_links, uint32_t node_id)] *)
Fixpoint isNodeWithin (node_links : list uint32) (node_id : uint32) : bool :=
  match node_links with
  | [] => false
  | node_link :: rest =>
      if (node_link =? node_id)%N then true else isNodeWithin rest node_id
  end.

(** What the window reads off a [SkillNode]. *)
Record SkillNode : Type := mkSkillNode {
  GetId : uint32;
  GetExperiencePointsNeeded : uint32;
  GetItemsNeeded : list (uint32 * uint32);  (* item id, count needed *)
  GetChildrenNodeLinks : list uint32;
  GetParentNodeLinks : list uint32
}.

(** What the window reads off a [GlobalCharacter]. *)
Record GlobalCharacter : Type := mkCharacter {
  GetUnspentExperiencePoints : uint32;
  GetSkillNodeLocation : uint32;
  GetObtainedSkillNodes : list uint32
}.

(** [SkillGraph::GetSkillNode(id)]: the node, or [nullptr]. *)
Definition SkillGraph : Type := uint32 -> option SkillNode.

(** [InventoryHandler::GetGlobalObject(id)]: [nullptr], or an object of
    which the window reads [GetCount()]. *)
Definition InventoryHandler : Type := uint32 -> option uint32.

(** The members of the window these functions read and write.  The
    character is the one [_selected_character] points to. *)
Record Window : Type := mkWindow {
  _selected_character : option GlobalCharacter;
  _selected_node_id : uint32;
  _character_node_id : uint32
}.

(** Calls that leave these functions, in order. *)
Inductive call : Type :=
| PlaySound (name : String.string)
| PrintWarning (text : String.string)
| AddObtainedSkillNodeCall (node_id : uint32)
| SetEmptyOffset                               (* _current_offset = (-1, -1) *)
| UpdateSkillGraphView (arguments : list bool) (* the arguments written at the call *)
| BottomInfoSetNode (node : SkillNode) (unspent : uint32) (obtained : bool)
| ReloadCharacterWindows.

Inductive result : Type :=
| Done (w : Window) (calls : list call)
| NullNodeDereferenced.

(** [void SkillGraphWindow::_ResetSkillGraphView()] *)
Definition ResetSkillGraphView (skill_graph : SkillGraph) (w : Window)
  : Window * list call :=
  match skill_graph (_selected_node_id w) with
  | Some _ => (w, [UpdateSkillGraphView [false]])
  | None =>
      let w0 := mkWindow (_selected_character w) 0%N (_character_node_id w) in
      match skill_graph 0%N with
      | Some _ => (w0, [UpdateSkillGraphView [false]])
      | None =>
          (mkWindow (_selected_character w0) UINT32_MAX (_character_node_id w0),
           [SetEmptyOffset; PrintWarning Texts.empty_view])
      end
  end.

(** The loop over [GetItemsNeeded()]: [false] as soon as an item is not
    in the inventory or is there in too small a number. *)
Fixpoint items_available (inventory : InventoryHandler)
         (items : list (uint32 * uint32)) : bool :=
  match items with
  | [] => true
  | item :: rest =>
      match inventory (fst item) with
      | None => false
      | Some count =>
          if (count <? snd item)%N then false
          else items_available inventory rest
      end
  end.

(** How the loop over the obtained nodes ends. *)
Inductive scan : Type := AlreadyObtained | NeighborObtained | NoNeighbor.

(** The loop over [GetObtainedSkillNodes()], with its two inner loops
    over the children and the parent links. *)
Fixpoint scan_obtained (node : SkillNode) (obtained_nodes : list uint32) : scan :=
  match obtained_nodes with
  | [] => NoNeighbor
  | obtained_node_id :: rest =>
      if (GetId node =? obtained_node_id)%N then AlreadyObtained
      else
        let neighbor_obtained :=
          existsb (fun child_node_id => (child_node_id =? obtained_node_id)%N)
                  (GetChildrenNodeLinks node) in
        let neighbor_obtained :=
          neighbor_obtained ||
          existsb (fun parent_node_id => (parent_node_id =? obtained_node_id)%N)
                  (GetParentNodeLinks node) in
        if neighbor_obtained then NeighborObtained
        else scan_obtained node rest
  end.

Section Character.

(** [GlobalCharacter::AddObtainedSkillNode] and
    [GlobalCharacter::IsSkillNodeObtained] are defined with the character,
    outside these sources: what they do is left open. *)
Variable AddObtainedSkillNode : GlobalCharacter -> uint32 -> GlobalCharacter.
Variable IsSkillNodeObtained : GlobalCharacter -> uint32 -> bool.

(** [void SkillGraphWindow::_HandleNodeTransaction()], given what
    [InputManager->ConfirmPress()] answers. *)
Definition HandleNodeTransaction (ConfirmPress : bool)
           (skill_graph : SkillGraph) (inventory : InventoryHandler)
           (w : Window) : result :=
  if negb ConfirmPress then Done w []
  else
    match _selected_character w with
    | None => Done w []
    | Some character =>
        match skill_graph (_selected_node_id w) with
        | None => NullNodeDereferenced
        | Some current_skill_node =>
            if (GetUnspentExperiencePoints character <?
                GetExperiencePointsNeeded current_skill_node)%N
            then Done w [PlaySound Texts.bump]
            else if negb (items_available inventory
                            (GetItemsNeeded current_skill_node))
            then Done w [PlaySound Texts.bump]
            else if (GetSkillNodeLocation character =?
                     GetId current_skill_node)%N
            then Done w [PlaySound Texts.bump]
            else
              match scan_obtained current_skill_node
                      (GetObtainedSkillNodes character) with
              | AlreadyObtained => Done w [PlaySound Texts.bump]
              | NoNeighbor => Done w [PlaySound Texts.bump]
              | NeighborObtained =>
                  let character' :=
                    AddObtainedSkillNode character (GetId current_skill_node) in
                  Done (mkWindow (Some character') (_selected_node_id w)
                                 (GetSkillNodeLocation character'))
                       [AddObtainedSkillNodeCall (GetId current_skill_node);
                        PlaySound Texts.confirm;
                        UpdateSkillGraphView [true; true];
                        BottomInfoSetNode current_skill_node
                          (GetUnspentExperiencePoints character')
                          (IsSkillNodeObtained character'
                                               (GetId current_skill_node));
                        ReloadCharacterWindows]
              end
        end
    end.

End Character.

(** Whether the inventory holds an item in the number needed. *)
Definition item_available (inventory : InventoryHandler)
           (item : uint32 * uint32) : bool :=
  match inventory (fst item) with
  | Some count => (snd item <=? count)%N
  | None => false
  end.

(** Whether [id] is among the children or the parent links of a node. *)
Definition linked (node : SkillNode) (id : uint32) : bool :=
  existsb (N.eqb id) (GetChildrenNodeLinks node ++ GetParentNodeLinks node).

(** The condition under which a node not yet obtained can be bought:
    enough unspent experience, every needed item in the inventory in
    sufficient number, the character not standing on the node, and an
    obtained node among its children or parents. *)
Definition purchasable (inventory : InventoryHandler)
           (character : GlobalCharacter) (node : SkillNode) : bool :=
  (GetExperiencePointsNeeded node <=? GetUnspentExperiencePoints character)%N &&
  forallb (item_available inventory) (GetItemsNeeded node) &&
  negb (GetSkillNodeLocation character =? GetId node)%N &&
  existsb (linked node) (GetObtainedSkillNodes character).

(** What [_HandleNodeTransaction] does when every check has passed. *)
Definition purchase (AddObtainedSkillNode : GlobalCharacter -> uint32 -> GlobalCharacter)
           (IsSkillNodeObtained : GlobalCharacter -> uint32 -> bool)
           (w : Window) (character : GlobalCharacter) (node : SkillNode)
  : result :=
  Done (mkWindow (Some (AddObtainedSkillNode character (GetId node)))
                 (_selected_node_id w)
                 (GetSkillNodeLocation
                    (AddObtainedSkillNode character (GetId node))))
       [AddObtainedSkillNodeCall (GetId node);
        PlaySound Texts.confirm;
        UpdateSkillGraphView [true; true];
        BottomInfoSetNode node
          (GetUnspentExperiencePoints
             (AddObtainedSkillNode character (GetId node)))
          (IsSkillNodeObtained (AddObtainedSkillNode character (GetId node))
                               (GetId node));
        ReloadCharacterWindows].

Definition is_AddObtainedSkillNodeCall (c : call) : bool :=
  match c with AddObtainedSkillNodeCall _ => true | _ => false end.

(** A character operation to run examples with: the node is recorded as
    obtained and becomes the character's location. *)
Definition sample_AddObtainedSkillNode (c : GlobalCharacter) (id : uint32)
  : GlobalCharacter :=
  mkCharacter (GetUnspentExperiencePoints c) id (id :: GetObtainedSkillNodes c).

Definition sample_IsSkillNodeObtained (c : GlobalCharacter) (id : uint32) : bool :=
  existsb (N.eqb id) (GetObtainedSkillNodes c).

Definition sample_node : SkillNode := mkSkillNode 5%N 100%N [(7%N, 2%N)] [6%N] [4%N].

Definition sample_graph : SkillGraph :=
  fun id => if (id =? 5)%N then Some sample_node else None.

Definition sample_inventory : InventoryHandler :=
  fun id => if (id =? 7)%N then Some 3%N else None.

End SkillGraphWindow.

(** * Properties *)

(** ** Vectors *)

Lemma vector_back_snoc {A} (l : list A) (x : A) :
  vector_back (l ++ [x]) = Some x.
Proof.
  destruct l as [|a l]; [reflexivity|].
  cbn [app vector_back]. now rewrite last_last.
Qed.

Lemma vector_pop_back_snoc {A} (l : list A) (x : A) :
  vector_pop_back (l ++ [x]) = Some l.
Proof.
  unfold vector_pop_back.
  destruct (l ++ [x]) eqn:E.
  - now destruct l.
  - now rewrite <- E, removelast_last.
Qed.

Lemma vector_empty_snoc {A} (l : list A) (x : A) :
  vector_empty (l ++ [x]) = false.
Proof. now destruct l. Qed.

Lemma vector_empty_true {A} (l : list A) : vector_empty l = true <-> l = [].
Proof. destruct l; cbn; split; congruence. Qed.

Lemma vector_back_app {A} (l r : list A) :
  r <> [] -> vector_back (l ++ r) = vector_back r.
Proof.
  destruct r as [|y r _] using rev_ind; [congruence|].
  intros _. now rewrite app_assoc, !vector_back_snoc.
Qed.

Lemma vector_back_rev {A} (l : list A) : vector_back (rev l) = hd_error l.
Proof.
  destruct l as [|a l]; [reflexivity|].
  cbn [rev hd_error]. apply vector_back_snoc.
Qed.

(** ** 32-bit counters *)

Lemma uint32_decr_pos (x : uint32) :
  (x <> 0)%N -> (x < UINT32_MODULUS)%N -> uint32_decr x = (x - 1)%N.
Proof.
  intros Hx Hlt. unfold uint32_decr, to_uint32.
  replace (x + UINT32_MODULUS - 1)%N
    with ((x - 1) + 1 * UINT32_MODULUS)%N by lia.
  rewrite N.Div0.mod_add. apply N.mod_small. lia.
Qed.

Lemma to_uint32_range (n : N) : (to_uint32 n < UINT32_MODULUS)%N.
Proof. apply N.mod_lt. discriminate. Qed.

(** ** The loops *)

Lemma pop_loop_step s tr :
  pop_loop s tr =
  match pop_loop_pass s tr with
  | inl o => o
  | inr (s', tr') => pop_loop s' tr'
  end.
Proof.
  funelim (pop_loop s tr);
    match goal with E : pop_loop_pass _ _ = _ |- _ => rewrite E end;
    reflexivity.
Qed.

Lemma push_loop_step s tr :
  push_loop s tr =
  match push_loop_pass s tr with
  | inl o => o
  | inr (s', tr') => push_loop s' tr'
  end.
Proof.
  funelim (push_loop s tr);
    match goal with E : push_loop_pass _ _ = _ |- _ => rewrite E end;
    reflexivity.
Qed.

Lemma popped_zero v : popped 0 v = v.
Proof.
  unfold popped. cbn [N.to_nat]. rewrite Nat.sub_0_r. apply firstn_all.
Qed.

Lemma popped_snoc n v x :
  (n <> 0)%N -> popped n (v ++ [x]) = popped (n - 1) v.
Proof.
  intros Hn. unfold popped. rewrite length_app. cbn [length].
  replace (length v + 1 - N.to_nat n) with (length v - N.to_nat (n - 1)) by lia.
  rewrite firstn_app.
  replace (length v - N.to_nat (n - 1) - length v) with 0 by lia.
  cbn [firstn]. apply app_nil_r.
Qed.

Lemma pop_events_snoc n v x :
  (n <> 0)%N ->
  pop_events n (v ++ [x]) = Delete x :: pop_events (n - 1) v.
Proof.
  intros Hn. unfold pop_events. rewrite length_app. cbn [length].
  replace (length v + 1 - N.to_nat n) with (length v - N.to_nat (n - 1)) by lia.
  rewrite skipn_app.
  replace (length v - N.to_nat (n - 1) - length v) with 0 by lia.
  cbn [skipn]. rewrite rev_app_distr. cbn [rev app map].
  f_equal. f_equal.
  destruct (N.ltb_spec (N.of_nat (length v + 1)) n),
           (N.ltb_spec (N.of_nat (length v)) (n - 1)); try reflexivity; lia.
Qed.

(** The pop loop in closed form: it always returns, leaves the counter at
    zero and the live stack shortened by [min(_pop_count, depth)]. *)
Lemma pop_loop_spec gs ps sc pc fo fi ff tr :
  (pc < UINT32_MODULUS)%N ->
  pop_loop (mkEngine gs ps sc pc fo fi ff) tr =
  Returns tt (mkEngine (popped pc gs) ps sc 0%N fo fi ff)
          (tr ++ pop_events pc gs).
Proof.
  revert pc tr.
  induction gs as [|x gs IH] using rev_ind; intros pc tr Hpc;
    rewrite pop_loop_step; unfold pop_loop_pass; cbn [_pop_count _game_stack].
  - destruct (N.eqb_spec pc 0) as [->|Hne].
    + cbn. now rewrite app_nil_r.
    + cbn. unfold pop_events. cbn.
      destruct (N.ltb_spec 0 pc); [reflexivity|lia].
  - destruct (N.eqb_spec pc 0) as [->|Hne].
    + rewrite popped_zero. unfold pop_events. cbn [N.to_nat].
      rewrite Nat.sub_0_r, skipn_all. cbn [rev map app].
      destruct (N.ltb_spec (N.of_nat (length (gs ++ [x]))) 0); [lia|].
      now rewrite app_nil_r.
    + rewrite vector_empty_snoc.
      unfold game_stack_back, game_stack_pop_back, emit, modify, get, ret, bind.
      cbn [_game_stack]. rewrite vector_back_snoc.
      unfold set_game_stack, set_pop_count. cbn [_game_stack _push_stack
        _state_change _pop_count _fade_out _fade_in _fade_out_finished].
      rewrite vector_pop_back_snoc.
      cbn [_game_stack _push_stack
        _state_change _pop_count _fade_out _fade_in _fade_out_finished].
      rewrite uint32_decr_pos by assumption.
      rewrite IH by lia.
      rewrite popped_snoc, pop_events_snoc by assumption.
      now rewrite <- app_assoc.
Qed.

(** The push loop in closed form: it always returns, and empties the
    pending buffer from its back onto the live stack. *)
Lemma push_loop_spec gs ps sc pc fo fi ff tr :
  push_loop (mkEngine gs ps sc pc fo fi ff) tr =
  Returns tt (mkEngine (gs ++ rev ps) [] sc pc fo fi ff) tr.
Proof.
  revert gs.
  induction ps as [|x ps IH] using rev_ind; intros gs;
    rewrite push_loop_step; unfold push_loop_pass; cbn [_push_stack].
  - cbn. now rewrite app_nil_r.
  - destruct (N.eqb_spec (N.of_nat (length (ps ++ [x]))) 0) as [E|_].
    + rewrite length_app in E. cbn in E. lia.
    + unfold push_stack_back, push_stack_pop_back, modify, get, ret, bind.
      cbn [_push_stack]. rewrite vector_back_snoc.
      unfold set_game_stack, set_push_stack, vector_push_back.
      cbn [_game_stack _push_stack
        _state_change _pop_count _fade_out _fade_in _fade_out_finished].
      rewrite vector_pop_back_snoc.
      cbn [_game_stack _push_stack
        _state_change _pop_count _fade_out _fade_in _fade_out_finished].
      rewrite IH, rev_app_distr. cbn [rev app]. now rewrite <- app_assoc.
Qed.

(** ** [Update] in closed form *)

Lemma check_fade_out_spec video s tr :
  check_fade_out video s tr = Returns tt (after_fade_check video s) tr.
Proof.
  unfold check_fade_out, after_fade_check, when, modify, get, ret, bind.
  now destruct (_fade_out s && IsLastFadeTransitional video
                && negb (IsFading video)).
Qed.

Lemma commits_spec video s :
  commits video s =
  _fade_out_finished (after_fade_check video s) && _state_change s.
Proof.
  unfold commits. rewrite check_fade_out_spec. cbn [final_state].
  f_equal. unfold after_fade_check.
  now destruct (_fade_out s && _ && _); destruct s.
Qed.

Lemma after_fade_check_shape video gs ps sc pc fo fi ff :
  after_fade_check video (mkEngine gs ps sc pc fo fi ff) =
  mkEngine gs ps sc pc
    (_fade_out (after_fade_check video (mkEngine gs ps sc pc fo fi ff))) fi
    (_fade_out_finished (after_fade_check video (mkEngine gs ps sc pc fo fi ff))).
Proof.
  unfold after_fade_check. cbn [_fade_out].
  now destruct (fo && _ && _).
Qed.

Lemma update_top_spec s tr :
  update_top s tr = Returns tt s (tr ++ update_events (_game_stack s)).
Proof.
  unfold update_top, update_events, game_stack_back, when, emit, get, ret, bind.
  destruct s as [[|g v] ps sc pc fo fi ff]; cbn;
    [now rewrite app_nil_r | reflexivity].
Qed.

Lemma GetTop_spec s : GetTop s = vector_back (_game_stack s).
Proof. unfold GetTop. now destruct (_game_stack s). Qed.

Lemma commit_spec gs ps sc pc fo fi ff tr :
  (pc < UINT32_MODULUS)%N ->
  commit (mkEngine gs ps sc pc fo fi ff) tr =
  match vector_back (popped pc gs ++ rev ps) with
  | Some top =>
      Returns tt (mkEngine (popped pc gs ++ rev ps) [] false 0%N fo fi false)
              (tr ++ pop_events pc gs ++ activation_events top fi)
  | None =>
      Undefined (mkEngine [] [] sc 0%N fo fi ff)
                (tr ++ pop_events pc gs ++
                 [PrintWarning Messages.stack_is_empty; ExitGame])
  end.
Proof.
  intros Hpc. unfold commit.
  unfold bind at 1. rewrite pop_loop_spec by assumption.
  unfold bind at 1. rewrite push_loop_spec.
  unfold game_stack_back, when, emit, modify, get, ret, bind,
    undefined_behaviour.
  cbn [_game_stack].
  destruct (popped pc gs ++ rev ps) as [|g v] eqn:E.
  - cbn. now rewrite <- !app_assoc.
  - cbn -[last]. unfold activation_events.
    rewrite <- !app_assoc. reflexivity.
Qed.

Lemma Update_without_commit video s tr :
  commits video s = false ->
  Update video s tr =
  Returns tt (after_fade_check video s)
          (tr ++ update_events (_game_stack s)).
Proof.
  intros Hc. unfold Update.
  unfold bind at 1. rewrite check_fade_out_spec.
  unfold bind at 1, get at 1. unfold bind at 1.
  rewrite commits_spec in Hc.
  replace (_state_change (after_fade_check video s)) with (_state_change s)
    by (unfold after_fade_check; now destruct (_fade_out s && _ && _)).
  rewrite Hc. cbn [when ret]. rewrite update_top_spec.
  do 2 f_equal. unfold after_fade_check.
  now destruct (_fade_out s && _ && _).
Qed.

Lemma Update_with_commit video s tr :
  pop_count_in_range s ->
  commits video s = true ->
  Update video s tr =
  match vector_back (reconciled s) with
  | Some top =>
      Returns tt
        (mkEngine (reconciled s) [] false 0%N
                  (_fade_out (after_fade_check video s)) (_fade_in s) false)
        (tr ++ pop_events (_pop_count s) (_game_stack s) ++
         activation_events top (_fade_in s) ++ [ModeUpdate top])
  | None =>
      Undefined
        (mkEngine [] [] true 0%N
                  (_fade_out (after_fade_check video s)) (_fade_in s) true)
        (tr ++ pop_events (_pop_count s) (_game_stack s) ++
         [PrintWarning Messages.stack_is_empty; ExitGame])
  end.
Proof.
  intros Hpc Hc. unfold Update.
  unfold bind at 1. rewrite check_fade_out_spec.
  unfold bind at 1, get at 1. unfold bind at 1.
  rewrite commits_spec in Hc.
  apply andb_prop in Hc. destruct Hc as [Hff Hsc].
  destruct s as [gs ps sc pc fo fi ff]. cbn [_state_change] in Hsc. subst sc.
  rewrite after_fade_check_shape in *. cbn [_fade_out_finished] in Hff.
  cbn [_fade_out_finished _state_change _fade_out] in *.
  rewrite Hff. cbn [andb when].
  rewrite commit_spec by exact Hpc.
  unfold reconciled. cbn [_pop_count _game_stack _push_stack _fade_in].
  destruct (vector_back (popped pc gs ++ rev ps)) as [top|] eqn:E.
  - rewrite update_top_spec. cbn [_game_stack].
    unfold update_events. rewrite E. now rewrite <- !app_assoc.
  - reflexivity.
Qed.

(** ** Requests in closed form *)

Lemma Push_spec gm fade_out fade_in s tr :
  Push gm fade_out fade_in s tr =
  Returns tt
    (mkEngine (_game_stack s) (_push_stack s ++ [gm]) true (_pop_count s)
              fade_out fade_in (negb fade_out))
    (tr ++ fade_out_events fade_out).
Proof.
  destruct s, fade_out; cbn; now rewrite ?app_nil_r.
Qed.

Lemma Pop_spec fade_out fade_in s tr :
  Pop fade_out fade_in s tr =
  Returns tt
    (mkEngine (_game_stack s) (_push_stack s) true (uint32_incr (_pop_count s))
              fade_out fade_in (negb fade_out))
    (tr ++ fade_out_events fade_out).
Proof.
  destruct s, fade_out; cbn -[uint32_incr]; now rewrite ?app_nil_r.
Qed.

Lemma PopAll_spec s tr :
  PopAll s tr =
  Returns tt
    (set_pop_count (to_uint32 (N.of_nat (length (_game_stack s)))) s) tr.
Proof. reflexivity. Qed.

Lemma run_request_returns r s tr :
  exists s' tr', run_request r s tr = Returns tt s' tr'.
Proof.
  destruct r; cbn [run_request];
    rewrite ?Push_spec, ?Pop_spec, ?PopAll_spec; eauto.
Qed.

Lemma run_requests_returns rs s tr :
  exists s' tr', run_requests rs s tr = Returns tt s' tr'.
Proof.
  revert s tr. induction rs as [|r rs IH]; intros s tr; cbn [run_requests].
  - unfold ret. eauto.
  - unfold bind. destruct (run_request_returns r s tr) as (s1 & tr1 & ->).
    apply IH.
Qed.

Lemma run_requests_app rs1 rs2 s tr :
  run_requests (rs1 ++ rs2) s tr =
  run_requests rs2 (final_state (run_requests rs1 s tr))
               (trace_of (run_requests rs1 s tr)).
Proof.
  revert s tr. induction rs1 as [|r rs IH]; intros s tr; [reflexivity|].
  cbn [app run_requests]. unfold bind.
  destruct (run_request_returns r s tr) as (s1 & tr1 & ->). apply IH.
Qed.

(** Requests never touch the live stack; pushes are appended to the
    pending buffer in call order. *)
Lemma run_requests_stacks rs s tr :
  _game_stack (final_state (run_requests rs s tr)) = _game_stack s /\
  _push_stack (final_state (run_requests rs s tr)) = _push_stack s ++ pushed rs.
Proof.
  revert s tr. induction rs as [|r rs IH]; intros s tr; cbn [run_requests].
  - cbn. now rewrite app_nil_r.
  - unfold bind. destruct r as [gm fo fi|fo fi|]; cbn [run_request pushed];
      rewrite ?Push_spec, ?Pop_spec, ?PopAll_spec.
    + match goal with |- context [run_requests rs ?s1 ?tr1] =>
        destruct (IH s1 tr1) as [-> ->] end.
      cbn. now rewrite <- app_assoc.
    + match goal with |- context [run_requests rs ?s1 ?tr1] =>
        destruct (IH s1 tr1) as [-> ->] end.
      now cbn.
    + match goal with |- context [run_requests rs ?s1 ?tr1] =>
        destruct (IH s1 tr1) as [-> ->] end.
      now destruct s.
Qed.

Lemma uint32_incr_range x : (uint32_incr x < UINT32_MODULUS)%N.
Proof. apply to_uint32_range. Qed.

(** The pop counter stays a [uint32] under every request. *)
Lemma run_requests_in_range rs s tr :
  pop_count_in_range s ->
  pop_count_in_range (final_state (run_requests rs s tr)).
Proof.
  revert s tr. induction rs as [|r rs IH]; intros s tr Hs; cbn [run_requests].
  - exact Hs.
  - unfold bind. destruct r as [gm fo fi|fo fi|]; cbn [run_request];
      rewrite ?Push_spec, ?Pop_spec, ?PopAll_spec; apply IH;
      unfold pop_count_in_range; cbn [_pop_count].
    + exact Hs.
    + apply uint32_incr_range.
    + destruct s; cbn. apply to_uint32_range.
Qed.

(** A [Push] or [Pop] overwrites the three fade flags and raises
    [_state_change], whatever they were. *)
Lemma run_request_flags r fo fi s tr :
  fade_arguments r = Some (fo, fi) ->
  let s' := final_state (run_request r s tr) in
  _fade_out s' = fo /\ _fade_out_finished s' = negb fo /\
  _fade_in s' = fi /\ _state_change s' = true.
Proof.
  destruct r as [gm fo' fi'|fo' fi'|]; cbn [fade_arguments]; intros E;
    [injection E as -> -> | injection E as -> -> | discriminate];
    cbn [run_request]; rewrite ?Push_spec, ?Pop_spec; cbn; auto.
Qed.

(** An engine whose fade-out is marked finished and whose state change is
    pending commits at the next [Update] whatever the video manager
    answers. *)
Lemma finished_commits video s :
  _fade_out_finished s = true -> _state_change s = true ->
  commits video s = true.
Proof.
  intros Hff Hsc. rewrite commits_spec, Hsc. unfold after_fade_check.
  destruct (_fade_out s && _ && _); [now destruct s | now rewrite Hff].
Qed.

(** The live stack at the end of a committing [Update], also when the call
    runs into the empty stack. *)
Lemma Update_with_commit_stack video s tr :
  pop_count_in_range s ->
  commits video s = true ->
  _game_stack (final_state (Update video s tr)) = reconciled s.
Proof.
  intros Hpc Hc. rewrite Update_with_commit by assumption.
  destruct (vector_back (reconciled s)) eqn:E; cbn [final_state _game_stack].
  - reflexivity.
  - destruct (reconciled s); [reflexivity | discriminate].
Qed.

(** ** Trace bookkeeping *)

Lemma filter_is_Reset_pop_events n v : filter is_Reset (pop_events n v) = [].
Proof.
  unfold pop_events. rewrite filter_app.
  replace (filter is_Reset
             (if (N.of_nat (length v) <? n)%N
              then [PrintWarning Messages.popped_too_many] else [])) with
    (@nil event) by now destruct (_ <? _)%N.
  rewrite app_nil_r.
  induction (rev (skipn (length v - N.to_nat n) v)) as [|g l IH];
    [reflexivity | exact IH].
Qed.

Lemma filter_is_Reset_update_events v : filter is_Reset (update_events v) = [].
Proof. unfold update_events. now destruct (vector_back v). Qed.

Lemma deleted_app tr1 tr2 : deleted (tr1 ++ tr2) = deleted tr1 ++ deleted tr2.
Proof. unfold deleted. apply flat_map_app. Qed.

Lemma deleted_pop_events n v :
  deleted (pop_events n v) = rev (skipn (length v - N.to_nat n) v).
Proof.
  unfold pop_events. rewrite deleted_app.
  replace (deleted (if (N.of_nat (length v) <? n)%N
                    then [PrintWarning Messages.popped_too_many] else []))
    with (@nil GameMode) by now destruct (_ <? _)%N.
  rewrite app_nil_r.
  induction (rev (skipn (length v - N.to_nat n) v)) as [|g l IH];
    [reflexivity | cbn; now f_equal].
Qed.

Lemma popped_all n v : (N.of_nat (length v) <= n)%N -> popped n v = [].
Proof.
  intros H. unfold popped.
  replace (length v - N.to_nat n) with 0 by lia. reflexivity.
Qed.

Lemma pop_events_excess n v :
  (N.of_nat (length v) < n)%N ->
  pop_events n v =
  map Delete (rev v) ++ [PrintWarning Messages.popped_too_many].
Proof.
  intros H. unfold pop_events.
  replace (length v - N.to_nat n) with 0 by lia. cbn [skipn].
  destruct (N.ltb_spec (N.of_nat (length v)) n); [reflexivity | lia].
Qed.

(** ** Lookups *)

Lemma Get_beyond s index :
  (N.of_nat (length (_game_stack s)) < index)%N -> Get s index = Value None.
Proof.
  intros H. unfold Get.
  now destruct (N.ltb_spec (N.of_nat (length (_game_stack s))) index); [|lia].
Qed.

Lemma Get_within s index :
  (1 <= index)%N -> (index <= N.of_nat (length (_game_stack s)))%N ->
  exists gm,
    nth_error (_game_stack s) (length (_game_stack s) - N.to_nat index) = Some gm /\
    Get s index = Value (Some gm).
Proof.
  intros H1 H2. unfold Get, vector_at.
  destruct (N.ltb_spec (N.of_nat (length (_game_stack s))) index); [lia|].
  replace (N.to_nat (N.of_nat (length (_game_stack s)) - index))
    with (length (_game_stack s) - N.to_nat index) by lia.
  destruct (nth_error (_game_stack s) (length (_game_stack s) - N.to_nat index))
    as [gm|] eqn:E.
  - eauto.
  - apply nth_error_None in E. lia.
Qed.

Lemma GetGameType_at_spec dummy s index :
  GetGameType_at dummy s index =
  match Get s index with
  | Value p => Value (tag_of dummy p)
  | out_of_range => out_of_range
  end.
Proof.
  unfold GetGameType_at, Get.
  destruct (_ <? _)%N; [reflexivity|].
  now destruct (vector_at _ _).
Qed.

Lemma GetGameType_spec dummy s : GetGameType dummy s = tag_of dummy (GetTop s).
Proof.
  unfold GetGameType, GetTop.
  destruct (vector_empty (_game_stack s)); [reflexivity|].
  now destruct (vector_back (_game_stack s)).
Qed.

(** ** Waiting for the fade *)

Lemma Update_while_fading video s tr :
  _fade_out_finished s = false ->
  IsFading video = true ->
  Update video s tr = Returns tt s (tr ++ update_events (_game_stack s)).
Proof.
  intros Hff Hfading.
  assert (Hs : after_fade_check video s = s).
  { unfold after_fade_check. rewrite Hfading.
    now rewrite andb_false_r. }
  rewrite Update_without_commit.
  - now rewrite Hs.
  - rewrite commits_spec, Hs, Hff. reflexivity.
Qed.

Lemma Updates_while_fading videos s tr :
  _fade_out_finished s = false ->
  Forall (fun video => IsFading video = true) videos ->
  Updates videos s tr =
  Returns tt s
    (tr ++ concat (map (fun _ => update_events (_game_stack s)) videos)).
Proof.
  intros Hff Hall. revert tr.
  induction Hall as [|video videos Hv _ IH]; intros tr; cbn [Updates map concat].
  - unfold ret. now rewrite app_nil_r.
  - unfold bind. rewrite Update_while_fading by assumption.
    rewrite IH. now rewrite <- app_assoc.
Qed.

(** * The claims *)

(** ** C1: the order in which pending pushes reach the live stack *)

(** C1, as stated, fails: with mode C live, [Push(A); Pop(); Push(B);
    Update()] pops C and then empties the pending buffer from its back, so
    B lands first and A, the mode pushed earliest, ends on top. *)
Lemma C1_counterexample :
  _game_stack
    (final_state
       ((run_requests [ReqPush sample_A false false; ReqPop false false;
                       ReqPush sample_B false false] ;;
         Update no_fade) (idle [sample_C]) []))
  = [sample_B; sample_A] /\
  GetTop
    (final_state
       ((run_requests [ReqPush sample_A false false; ReqPop false false;
                       ReqPush sample_B false false] ;;
         Update no_fade) (idle [sample_C]) []))
  <> Some sample_B.
Proof. vm_compute. split; [reflexivity | discriminate]. Qed.

(** C1, amended: for every frame of requests that pushes at least one
    mode, a committing [Update] returns with the pending buffer moved onto
    the live stack in the reverse of the order of the [Push] calls, above
    what the pops left of the old stack; the mode pushed earliest is the
    new top. *)
Theorem C1_pending_pushes_land_in_reverse_order s rs video tr :
  pop_count_in_range s ->
  pushed rs <> [] ->
  commits video (final_state (run_requests rs s tr)) = true ->
  exists s' tr',
    (run_requests rs ;; Update video) s tr = Returns tt s' tr' /\
    _game_stack s' =
      popped (_pop_count (final_state (run_requests rs s tr))) (_game_stack s)
      ++ rev (_push_stack s ++ pushed rs) /\
    _push_stack s' = [] /\
    GetTop s' = hd_error (_push_stack s ++ pushed rs).
Proof.
  intros Hpc Hne Hc.
  pose proof (run_requests_stacks rs s tr) as [Hgs Hps].
  pose proof (run_requests_in_range rs tr Hpc) as Hpc1.
  unfold bind.
  destruct (run_requests_returns rs s tr) as (s1 & tr1 & E).
  rewrite E in *. cbn [final_state] in *.
  rewrite Update_with_commit by assumption.
  unfold reconciled. rewrite Hgs, Hps.
  assert (Hback :
    vector_back (popped (_pop_count s1) (_game_stack s)
                 ++ rev (_push_stack s ++ pushed rs))
    = hd_error (_push_stack s ++ pushed rs)).
  { rewrite vector_back_app, vector_back_rev; [reflexivity|].
    intros Hnil. apply (f_equal (@rev _)) in Hnil.
    rewrite rev_involutive in Hnil. cbn in Hnil.
    apply app_eq_nil in Hnil. tauto. }
  rewrite Hback.
  destruct (hd_error (_push_stack s ++ pushed rs)) as [top|] eqn:Ehd.
  - do 2 eexists. split; [reflexivity|].
    cbn [_game_stack _push_stack]. rewrite GetTop_spec. cbn [_game_stack].
    rewrite Hback. auto.
  - destruct (_push_stack s ++ pushed rs) eqn:Eapp; [|discriminate].
    apply app_eq_nil in Eapp. tauto.
Qed.

Lemma C1_pending_pushes_land_in_reverse_order_witness :
  exists s' tr',
    (run_requests [ReqPush sample_A false false; ReqPop false false;
                   ReqPush sample_B false false] ;;
     Update no_fade) (idle [sample_C]) [] = Returns tt s' tr' /\
    _game_stack s' = [] ++ rev ([] ++ [sample_A; sample_B]) /\
    _push_stack s' = [] /\
    GetTop s' = Some sample_A.
Proof.
  apply (@C1_pending_pushes_land_in_reverse_order
           (idle [sample_C])
           [ReqPush sample_A false false; ReqPop false false;
            ReqPush sample_B false false]
           no_fade []).
  - reflexivity.
  - discriminate.
  - reflexivity.
Defined.

(** ** C2: the empty live stack *)

(** C2: when the pops and pushes of a committing [Update] leave the live
    stack empty, the call warns and requests the exit, and the statement it
    executes next is [_game_stack.back()->Reset()] on the empty vector: the
    call does not stop after [ExitGame]. *)
Theorem C2_empty_stack_is_dereferenced_after_ExitGame s video tr :
  pop_count_in_range s ->
  commits video s = true ->
  reconciled s = [] ->
  exists s',
    Update video s tr =
    Undefined s'
      (tr ++ pop_events (_pop_count s) (_game_stack s) ++
       [PrintWarning Messages.stack_is_empty; ExitGame]) /\
    _game_stack s' = [] /\
    _state_change s' = true /\
    _fade_out_finished s' = true.
Proof.
  intros Hpc Hc He.
  rewrite Update_with_commit by assumption.
  rewrite He. cbn [vector_back]. eexists. split; [reflexivity|]. now cbn.
Qed.

Lemma C2_empty_stack_is_dereferenced_after_ExitGame_witness :
  exists s',
    Update no_fade (final_state (Pop false false (idle [sample_A]) [])) [] =
    Undefined s'
      ([] ++ [Delete sample_A] ++
       [PrintWarning Messages.stack_is_empty; ExitGame]) /\
    _game_stack s' = [] /\
    _state_change s' = true /\
    _fade_out_finished s' = true.
Proof.
  apply (@C2_empty_stack_is_dereferenced_after_ExitGame
           (final_state (Pop false false (idle [sample_A]) [])) no_fade []);
    reflexivity.
Defined.

(** ** C3: [PopAll] *)

(** C3: on an engine with no request pending, [PopAll()] followed by
    [Update()] returns with the live stack as it was: [PopAll] only sets the
    counter, [Update] finds no state change to commit, destroys nothing,
    requests no exit and updates the old top. *)
Theorem C3_PopAll_alone_is_not_committed v video tr :
  (PopAll ;; Update video) (idle v) tr =
  Returns tt
    (mkEngine v [] false (to_uint32 (N.of_nat (length v))) false false false)
    (tr ++ update_events v).
Proof.
  unfold bind. rewrite PopAll_spec.
  rewrite Update_without_commit.
  - unfold after_fade_check. cbn. reflexivity.
  - reflexivity.
Qed.

(** When a [Push] or [Pop] has raised the state change, the counter set by
    [PopAll] does take the whole live stack off at the commit. *)
Lemma PopAll_empties_at_commit s tr :
  (N.of_nat (length (_game_stack s)) < UINT32_MODULUS)%N ->
  reconciled (final_state (PopAll s tr)) = rev (_push_stack s).
Proof.
  intros Hlen. rewrite PopAll_spec. cbn [final_state].
  unfold reconciled. destruct s as [gs ps sc pc fo fi ff].
  cbn [set_pop_count _pop_count _game_stack _push_stack] in *.
  unfold to_uint32. rewrite N.mod_small by exact Hlen.
  rewrite popped_all by lia. reflexivity.
Qed.

(** ** C4: indexed lookups *)

(** C4: for index 0 both indexed lookups pass the test [size < index] and
    call [_game_stack.at(size)], which throws [std::out_of_range], on every
    live stack, the empty one included. *)
Theorem C4_index_zero_throws dummy s :
  Get s 0%N = out_of_range /\ GetGameType_at dummy s 0%N = out_of_range.
Proof.
  assert (H : Get s 0%N = out_of_range).
  { unfold Get, vector_at. cbn [N.ltb]. rewrite N.sub_0_r, Nat2N.id.
    destruct (N.of_nat (length (_game_stack s)) <? 0)%N eqn:E.
    - apply N.ltb_lt in E. lia.
    - destruct (nth_error (_game_stack s) (length (_game_stack s))) eqn:En;
        [|reflexivity].
      assert (Hs : nth_error (_game_stack s) (length (_game_stack s)) <> None)
        by congruence.
      apply nth_error_Some in Hs. lia. }
  split; [exact H|]. now rewrite GetGameType_at_spec, H.
Qed.

(** ** C5: more pops than modes *)

(** C5: when the pop counter exceeds the depth of the live stack, the pop
    loop returns (it never calls [back()] or [pop_back()] on the empty
    vector) having destroyed each live mode once, top first, and then
    logged the warning once; it leaves the live stack empty and the counter
    at zero, and touches nothing else.  With a push pending the whole
    [Update] returns as well. *)
Theorem C5_excess_pops_are_drained s video tr :
  pop_count_in_range s ->
  (N.of_nat (length (_game_stack s)) < _pop_count s)%N ->
  (exists s',
     pop_loop s tr =
     Returns tt s'
       (tr ++ map Delete (rev (_game_stack s)) ++
        [PrintWarning Messages.popped_too_many]) /\
     _pop_count s' = 0%N /\
     _game_stack s' = [] /\
     s' = set_pop_count 0%N (set_game_stack [] s)) /\
  (commits video s = true -> _push_stack s <> [] ->
   returned (Update video s tr) = true /\
   _pop_count (final_state (Update video s tr)) = 0%N /\
   _game_stack (final_state (Update video s tr)) = rev (_push_stack s)).
Proof.
  intros Hpc Hex. split.
  - destruct s as [gs ps sc pc fo fi ff]. cbn [_game_stack _pop_count] in *.
    rewrite pop_loop_spec by exact Hpc.
    rewrite pop_events_excess by exact Hex.
    rewrite popped_all by lia.
    eexists. split; [reflexivity|]. now cbn.
  - intros Hc Hne. rewrite Update_with_commit by assumption.
    unfold reconciled. rewrite popped_all by lia. cbn [app].
    rewrite vector_back_rev.
    destruct (_push_stack s) as [|p ps]; [congruence|]. now cbn.
Qed.

Lemma C5_excess_pops_are_drained_witness :
  (exists s',
     pop_loop
       (final_state
          (run_requests [ReqPush sample_B false false; ReqPop false false;
                         ReqPop false false] (idle [sample_A]) [])) [] =
     Returns tt s'
       ([] ++ map Delete (rev [sample_A]) ++
        [PrintWarning Messages.popped_too_many]) /\
     _pop_count s' = 0%N /\
     _game_stack s' = [] /\
     s' = mkEngine [] [sample_B] true 0%N false false true) /\
  returned
    (Update no_fade
       (final_state
          (run_requests [ReqPush sample_B false false; ReqPop false false;
                         ReqPop false false] (idle [sample_A]) [])) [])
  = true /\
  _pop_count
    (final_state
       (Update no_fade
          (final_state
             (run_requests [ReqPush sample_B false false; ReqPop false false;
                            ReqPop false false] (idle [sample_A]) [])) []))
  = 0%N /\
  _game_stack
    (final_state
       (Update no_fade
          (final_state
             (run_requests [ReqPush sample_B false false; ReqPop false false;
                            ReqPop false false] (idle [sample_A]) [])) []))
  = [sample_B].
Proof.
  destruct (@C5_excess_pops_are_drained
              (final_state
                 (run_requests [ReqPush sample_B false false;
                                ReqPop false false; ReqPop false false]
                               (idle [sample_A]) []))
              no_fade []) as [Hloop Hupdate].
  - reflexivity.
  - reflexivity.
  - split; [exact Hloop|]. apply Hupdate; [reflexivity | discriminate].
Defined.

(** ** C6: pops are resolved before pushes *)

(** C6: a committing [Update] with pushes pending returns; the modes it
    destroys are the top [min(_pop_count, depth)] modes of the live stack as
    it was before the pushes, top first, and never a pending mode; the
    pending modes are then put above what is left.  When the counter
    reaches the old depth or exceeds it, the pop loop leaves the live stack
    empty with the pending buffer untouched, and the call ends with the
    pushed modes only. *)
Theorem C6_pops_are_applied_before_pushes s video tr :
  pop_count_in_range s ->
  commits video s = true ->
  _push_stack s <> [] ->
  exists s' tr',
    Update video s tr =
    Returns tt s' (tr ++ pop_events (_pop_count s) (_game_stack s) ++ tr') /\
    _game_stack (final_state (pop_loop s tr)) =
      popped (_pop_count s) (_game_stack s) /\
    _push_stack (final_state (pop_loop s tr)) = _push_stack s /\
    deleted (pop_events (_pop_count s) (_game_stack s)) =
      rev (skipn (length (_game_stack s) - N.to_nat (_pop_count s))
                 (_game_stack s)) /\
    deleted tr' = [] /\
    _game_stack s' =
      popped (_pop_count s) (_game_stack s) ++ rev (_push_stack s) /\
    ((N.of_nat (length (_game_stack s)) <= _pop_count s)%N ->
     popped (_pop_count s) (_game_stack s) = [] /\
     _game_stack s' = rev (_push_stack s)).
Proof.
  intros Hpc Hc Hne. rewrite Update_with_commit by assumption.
  assert (Hloop :
    _game_stack (final_state (pop_loop s tr)) =
      popped (_pop_count s) (_game_stack s) /\
    _push_stack (final_state (pop_loop s tr)) = _push_stack s).
  { destruct s as [gs ps sc pc fo fi ff].
    rewrite pop_loop_spec by exact Hpc. now cbn. }
  destruct Hloop as [Hgs Hps].
  unfold reconciled.
  rewrite vector_back_app, vector_back_rev
    by (intros Hnil; apply (f_equal (@rev _)) in Hnil;
        now rewrite rev_involutive in Hnil).
  destruct (_push_stack s) as [|p ps] eqn:Eps; [congruence|].
  cbn [hd_error]. do 2 eexists. split; [reflexivity|].
  split; [exact Hgs|]. split; [exact Hps|].
  split; [apply deleted_pop_events|].
  split; [reflexivity|].
  split; [reflexivity|].
  intros Hall. cbn [_game_stack]. now rewrite popped_all by exact Hall.
Qed.

Lemma C6_pops_are_applied_before_pushes_witness :
  exists s' tr',
    Update no_fade
      (final_state
         (run_requests [ReqPush sample_A false false; ReqPop false false]
                       (idle [sample_C]) [])) [] =
    Returns tt s' ([] ++ [Delete sample_C] ++ tr') /\
    deleted tr' = [] /\
    _game_stack s' = [sample_A].
Proof.
  destruct (@C6_pops_are_applied_before_pushes
              (final_state
                 (run_requests [ReqPush sample_A false false;
                                ReqPop false false] (idle [sample_C]) []))
              no_fade []) as (s' & tr' & Hrun & _ & _ & _ & Hdel & _ & Hall).
  - reflexivity.
  - reflexivity.
  - discriminate.
  - exists s', tr'. split; [exact Hrun|]. split; [exact Hdel|].
    apply Hall. discriminate.
Defined.

(** ** C7: the commit waits for the fade-out, and only for it *)

(** C7: after a [Push] or [Pop] with [fade_out] set, any number of
    [Update] calls during which the video manager reports a fade in
    progress return with the engine, and so the live stack and its top, as
    the request left them; after a [Push] or [Pop] with [fade_out] clear,
    the fade-out is marked finished and the next [Update] commits whatever
    the video manager reports, producing the reconciled live stack. *)
Theorem C7_commit_is_gated_on_the_fade_out s r fade_out fade_in videos tr :
  fade_arguments r = Some (fade_out, fade_in) ->
  pop_count_in_range s ->
  Forall (fun video => IsFading video = true) videos ->
  let s1 := final_state (run_request r s tr) in
  let tr1 := trace_of (run_request r s tr) in
  _game_stack s1 = _game_stack s /\
  (fade_out = true ->
   Updates videos s1 tr1 =
     Returns tt s1
       (tr1 ++ concat (map (fun _ => update_events (_game_stack s)) videos)) /\
   GetTop (final_state (Updates videos s1 tr1)) = GetTop s) /\
  (fade_out = false ->
   _fade_out_finished s1 = true /\
   forall video,
     commits video s1 = true /\
     _game_stack (final_state (Update video s1 tr1)) = reconciled s1).
Proof.
  intros Hr Hpc Hall s1 tr1.
  pose proof (@run_request_flags r fade_out fade_in s tr Hr)
    as (Hfo & Hff & Hfi & Hsc).
  fold s1 in Hfo, Hff, Hfi, Hsc.
  assert (Hgs : _game_stack s1 = _game_stack s).
  { pose proof (run_requests_stacks [r] s tr) as [H _].
    cbn [run_requests] in H. unfold bind in H. subst s1.
    destruct (run_request_returns r s tr) as (s' & tr' & E).
    rewrite E in *. exact H. }
  split; [exact Hgs|]. split.
  - intros ->. cbn [negb] in Hff.
    rewrite Updates_while_fading by assumption.
    rewrite Hgs. split; [reflexivity|].
    cbn [final_state]. now rewrite !GetTop_spec, Hgs.
  - intros ->. cbn [negb] in Hff. split; [exact Hff|].
    intros video.
    assert (Hc : commits video s1 = true) by now apply finished_commits.
    split; [exact Hc|].
    apply Update_with_commit_stack; [|exact Hc].
    pose proof (run_requests_in_range [r] tr Hpc) as H.
    cbn [run_requests] in H. unfold bind in H. subst s1.
    destruct (run_request_returns r s tr) as (s' & tr' & E).
    rewrite E in *. exact H.
Qed.

Lemma C7_commit_is_gated_on_the_fade_out_witness :
  (let s1 := final_state (Pop true true (idle [sample_A; sample_B]) []) in
   let tr1 := trace_of (Pop true true (idle [sample_A; sample_B]) []) in
   Updates [fading; fading] s1 tr1 =
     Returns tt s1
       (tr1 ++ [ModeUpdate sample_B; ModeUpdate sample_B]) /\
   GetTop (final_state (Updates [fading; fading] s1 tr1)) = Some sample_B) /\
  (let s1 := final_state (Push sample_B false false (idle [sample_A]) []) in
   let tr1 := trace_of (Push sample_B false false (idle [sample_A]) []) in
   _fade_out_finished s1 = true /\
   commits fading s1 = true /\
   _game_stack (final_state (Update fading s1 tr1)) = [sample_A; sample_B]).
Proof.
  split.
  - destruct (@C7_commit_is_gated_on_the_fade_out
                (idle [sample_A; sample_B]) (ReqPop true true) true true
                [fading; fading] []) as (_ & Hwait & _).
    + reflexivity.
    + reflexivity.
    + repeat constructor.
    + apply Hwait. reflexivity.
  - destruct (@C7_commit_is_gated_on_the_fade_out
                (idle [sample_A]) (ReqPush sample_B false false) false false
                [] []) as (_ & _ & Hnow).
    + reflexivity.
    + reflexivity.
    + constructor.
    + destruct (Hnow eq_refl) as [Hff Hv]. split; [exact Hff|]. apply Hv.
Defined.

(** ** C8: [Reset] *)

(** C8: an [Update] that commits and ends with a non-empty live stack
    calls [Reset()] exactly once, on the mode that is the top of the live
    stack when it returns; an [Update] that does not commit calls [Reset()]
    on no mode; one that commits onto an empty live stack never reaches a
    mode to reset. *)
Theorem C8_Reset_once_on_the_new_top s video tr :
  pop_count_in_range s ->
  filter is_Reset (trace_of (Update video s tr)) =
  filter is_Reset tr ++
  (if commits video s
   then match GetTop (final_state (Update video s tr)) with
        | Some top => [Reset top]
        | None => []
        end
   else []).
Proof.
  intros Hpc. destruct (commits video s) eqn:Hc.
  - rewrite Update_with_commit by assumption.
    destruct (vector_back (reconciled s)) as [top|] eqn:E;
      cbn [trace_of final_state]; rewrite GetTop_spec; cbn [_game_stack].
    + rewrite E. rewrite !filter_app, filter_is_Reset_pop_events. reflexivity.
    + cbn [vector_back]. rewrite !filter_app, filter_is_Reset_pop_events.
      reflexivity.
  - rewrite Update_without_commit by assumption. cbn [trace_of].
    now rewrite filter_app, filter_is_Reset_update_events.
Qed.

Lemma C8_Reset_once_on_the_new_top_witness :
  filter is_Reset
    (trace_of
       (Update no_fade
          (final_state (Pop false false (idle [sample_A; sample_B]) [])) []))
  = [Reset sample_A] /\
  filter is_Reset
    (trace_of (Update no_fade (idle [sample_A; sample_B]) [])) = [].
Proof.
  split.
  - apply (@C8_Reset_once_on_the_new_top
             (final_state (Pop false false (idle [sample_A; sample_B]) []))
             no_fade []).
    reflexivity.
  - apply (@C8_Reset_once_on_the_new_top
             (idle [sample_A; sample_B]) no_fade []).
    reflexivity.
Defined.

(** ** C9: the last request of a frame decides the transition *)

(** C9: whatever requests come first in a frame, after a final [Push] or
    [Pop] the three fade flags are the ones that call alone sets:
    [_fade_out] is its [fade_out] argument, [_fade_out_finished] the
    negation of it, [_fade_in] its [fade_in] argument.  So when the final
    call has [fade_out] clear, the next [Update] commits the whole batch
    whatever the video manager reports about an earlier fade. *)
Theorem C9_last_request_decides_the_transition
        s rs r fade_out fade_in tr :
  fade_arguments r = Some (fade_out, fade_in) ->
  pop_count_in_range s ->
  let s' := final_state (run_requests (rs ++ [r]) s tr) in
  _fade_out s' = fade_out /\
  _fade_out_finished s' = negb fade_out /\
  _fade_in s' = fade_in /\
  _state_change s' = true /\
  (fade_out = false ->
   forall video tr',
     commits video s' = true /\
     _game_stack (final_state (Update video s' tr')) = reconciled s').
Proof.
  intros Hr Hpc s'.
  assert (Hflags : _fade_out s' = fade_out /\
                   _fade_out_finished s' = negb fade_out /\
                   _fade_in s' = fade_in /\ _state_change s' = true).
  { subst s'. rewrite run_requests_app. cbn [run_requests]. unfold bind.
    destruct (run_request_returns r
                (final_state (run_requests rs s tr))
                (trace_of (run_requests rs s tr))) as (s1 & tr1 & E).
    rewrite E. cbn [ret final_state].
    pose proof (@run_request_flags r fade_out fade_in
                  (final_state (run_requests rs s tr))
                  (trace_of (run_requests rs s tr)) Hr) as H.
    rewrite E in H. exact H. }
  destruct Hflags as (Hfo & Hff & Hfi & Hsc).
  repeat (split; [assumption|]).
  intros -> video tr'. cbn [negb] in Hff.
  assert (Hc : commits video s' = true) by now apply finished_commits.
  split; [exact Hc|].
  apply Update_with_commit_stack; [|exact Hc].
  apply run_requests_in_range. exact Hpc.
Qed.

Lemma C9_last_request_decides_the_transition_witness :
  let s' :=
    final_state
      (run_requests ([ReqPush sample_A true true] ++ [ReqPop false false])
                    (idle [sample_C]) []) in
  _fade_out s' = false /\
  _fade_out_finished s' = true /\
  _fade_in s' = false /\
  _state_change s' = true /\
  commits fading s' = true /\
  _game_stack (final_state (Update fading s' [])) = [sample_A].
Proof.
  destruct (@C9_last_request_decides_the_transition
              (idle [sample_C]) [ReqPush sample_A true true]
              (ReqPop false false) false false [])
    as (Hfo & Hff & Hfi & Hsc & Hcommit).
  - reflexivity.
  - reflexivity.
  - repeat (split; [assumption|]). apply (Hcommit eq_refl fading []).
Defined.

(** ** C10: tags and pointers *)

(** Whatever the sentinel is, a live mode built by [GameMode::GameMode()]
    answers it as its tag while being a mode. *)
Lemma default_mode_carries_the_sentinel dummy addr :
  GetGameType dummy (idle [GameMode_default dummy addr]) = dummy /\
  GetTop (idle [GameMode_default dummy addr]) =
    Some (GameMode_default dummy addr).
Proof. split; reflexivity. Qed.

(** C10, as stated, fails: a mode built by the default constructor carries
    the sentinel tag, so with such a mode live [GetGameType()] returns the
    sentinel although [GetTop()] does not return [NULL]. *)
Lemma C10_counterexample :
  ~ (GetGameType 0%N (idle [GameMode_default 0%N 7%N]) = 0%N <->
     GetTop (idle [GameMode_default 0%N 7%N]) = None).
Proof. intros [H _]. specialize (H eq_refl). discriminate H. Qed.

(** C10, amended: [GetGameType()] returns the sentinel when [GetTop()]
    returns [NULL] and otherwise the tag of the mode [GetTop()] returns;
    and at every index at which [Get] returns, [GetGameType] returns the
    sentinel when [Get] returned [NULL] and otherwise the tag of the mode
    [Get] returned.  (A live mode may carry the sentinel as its own tag.) *)
Theorem C10_tag_lookups_follow_pointer_lookups dummy s index p :
  Get s index = Value p ->
  GetGameType dummy s = tag_of dummy (GetTop s) /\
  GetGameType_at dummy s index = Value (tag_of dummy p).
Proof.
  intros H. split; [apply GetGameType_spec|].
  now rewrite GetGameType_at_spec, H.
Qed.

Lemma C10_tag_lookups_follow_pointer_lookups_witness :
  GetGameType 0%N (idle [sample_A; sample_B]) = 20%N /\
  GetGameType_at 0%N (idle [sample_A; sample_B]) 2%N = Value 10%N.
Proof.
  apply (@C10_tag_lookups_follow_pointer_lookups
           0%N (idle [sample_A; sample_B]) 2%N (Some sample_A)).
  reflexivity.
Defined.

(** * Further properties of the engine *)

(** ** Indexed lookups count from the top *)

Lemma vector_back_hd_rev {A} (l : list A) : vector_back l = hd_error (rev l).
Proof. now rewrite <- vector_back_rev, rev_involutive. Qed.

Lemma Get_from_top s index :
  (1 <= index)%N ->
  Get s index = Value (nth_error (rev (_game_stack s)) (N.to_nat index - 1)).
Proof.
  intros H1. unfold Get, vector_at.
  destruct (N.ltb_spec (N.of_nat (length (_game_stack s))) index) as [Hlt|Hle].
  - symmetry. f_equal. apply nth_error_None. rewrite length_rev. lia.
  - rewrite nth_error_rev.
    destruct (Nat.ltb_spec (N.to_nat index - 1) (length (_game_stack s)));
      [|lia].
    replace (length (_game_stack s) - S (N.to_nat index - 1))
      with (N.to_nat (N.of_nat (length (_game_stack s)) - index)) by lia.
    destruct (nth_error (_game_stack s)
                (N.to_nat (N.of_nat (length (_game_stack s)) - index)))
      eqn:E; [reflexivity|].
    apply nth_error_None in E. lia.
Qed.

(** For every index from 1 on, [Get] and the indexed [GetGameType] return
    without throwing; they answer for the mode that many places from the
    top, 1 being the top itself, and with [NULL] and the sentinel when the
    live stack is not that deep. *)
Theorem Get_counts_from_the_top dummy s index :
  (1 <= index)%N ->
  Get s index = Value (nth_error (rev (_game_stack s)) (N.to_nat index - 1)) /\
  GetGameType_at dummy s index =
    Value (tag_of dummy
             (nth_error (rev (_game_stack s)) (N.to_nat index - 1))).
Proof.
  intros H1. split; [now apply Get_from_top|].
  now rewrite GetGameType_at_spec, Get_from_top.
Qed.

Lemma Get_counts_from_the_top_witness :
  Get (idle [sample_A; sample_B; sample_C]) 2%N = Value (Some sample_B) /\
  GetGameType_at 0%N (idle [sample_A; sample_B; sample_C]) 2%N = Value 20%N.
Proof.
  apply (@Get_counts_from_the_top 0%N (idle [sample_A; sample_B; sample_C]) 2%N).
  discriminate.
Defined.

(** On every live stack, the empty one included, [Get(1)] is [GetTop()]
    and the indexed [GetGameType(1)] is [GetGameType()]; and on a live
    stack of depth [n > 0], [Get(n)] is the mode at the bottom. *)
Theorem Get_one_is_GetTop dummy s :
  Get s 1%N = Value (GetTop s) /\
  GetGameType_at dummy s 1%N = Value (GetGameType dummy s) /\
  Get s (N.of_nat (length (_game_stack s))) =
    match _game_stack s with
    | [] => out_of_range
    | bottom :: _ => Value (Some bottom)
    end.
Proof.
  assert (H : Get s 1%N = Value (GetTop s)).
  { rewrite Get_from_top by lia. rewrite GetTop_spec, vector_back_hd_rev.
    cbn [N.to_nat Pos.to_nat Pos.iter_op Nat.sub].
    now destruct (rev (_game_stack s)). }
  split; [exact H|]. split.
  - now rewrite GetGameType_at_spec, H, GetGameType_spec.
  - unfold Get, vector_at. rewrite N.ltb_irrefl, N.sub_diag.
    now destruct (_game_stack s).
Qed.

(** ** Drawing *)

Lemma run_draw_spec d s tr :
  run_draw d s tr =
  Returns tt s
    (tr ++ match GetTop s with Some gm => [draw_event d gm] | None => [] end).
Proof.
  rewrite GetTop_spec.
  destruct d, s as [[|g v] ps sc pc fo fi ff]; cbn;
    now rewrite ?app_nil_r.
Qed.

(** Any sequence of [Draw], [DrawEffects] and [DrawPostEffects] calls
    returns with the engine exactly as it was; on an empty live stack it
    calls nothing, and otherwise every call is forwarded, in order, to the
    one mode on top. *)
Theorem drawing_only_reaches_the_top ds s tr :
  run_draws ds s tr =
  Returns tt s
    (tr ++ match GetTop s with
           | Some gm => map (fun d => draw_event d gm) ds
           | None => []
           end).
Proof.
  revert tr. induction ds as [|d ds IH]; intros tr; cbn [run_draws map].
  - unfold ret. destruct (GetTop s); now rewrite app_nil_r.
  - unfold bind. rewrite run_draw_spec, IH.
    destruct (GetTop s); now rewrite <- app_assoc.
Qed.

(** ** Requests are deferred *)

Lemma run_request_trace r s tr :
  trace_of (run_request r s tr) =
  tr ++ repeat (StartTransitionFadeOut black FADE_IN_OUT_TIME) (fade_outs [r]).
Proof.
  destruct r as [gm [|] fi|[|] fi|]; cbn [run_request];
    rewrite ?Push_spec, ?Pop_spec, ?PopAll_spec; cbn;
    now rewrite ?app_nil_r.
Qed.

Lemma fade_outs_cons r rs : fade_outs (r :: rs) = fade_outs [r] + fade_outs rs.
Proof.
  cbn [fade_outs]. destruct (fade_arguments r) as [[[|] ?]|]; cbn; lia.
Qed.

(** Whatever requests are made between two [Update] calls, they return at
    once and nothing happens to the live stack: [GetTop] and [Get] answer
    as before, no mode is destroyed, reset, updated or drawn, and all that
    leaves the engine is one fade-out start per request that asked for a
    fade-out. *)
Theorem requests_leave_the_live_stack_alone rs s tr :
  run_requests rs s tr =
    Returns tt (final_state (run_requests rs s tr))
      (tr ++ repeat (StartTransitionFadeOut black FADE_IN_OUT_TIME)
                    (fade_outs rs)) /\
  _game_stack (final_state (run_requests rs s tr)) = _game_stack s /\
  GetTop (final_state (run_requests rs s tr)) = GetTop s /\
  (forall index, Get (final_state (run_requests rs s tr)) index = Get s index).
Proof.
  pose proof (run_requests_stacks rs s tr) as [Hgs _].
  split; [|split; [exact Hgs|split]].
  - clear Hgs. revert s tr.
    induction rs as [|r rs IH]; intros s tr.
    + cbn. now rewrite app_nil_r.
    + cbn [run_requests]. unfold bind.
      pose proof (run_request_trace r s tr) as Htr.
      destruct (run_request_returns r s tr) as (s1 & tr1 & E).
      rewrite E in *. cbn [trace_of] in Htr. subst tr1.
      rewrite (fade_outs_cons r rs), repeat_app, app_assoc. apply IH.
  - now rewrite !GetTop_spec, Hgs.
  - intros index. unfold Get. now rewrite Hgs.
Qed.

(** ** What a frame of requests amounts to *)

Lemma run_requests_pop_count rs s tr :
  pop_count_in_range s ->
  has_PopAll rs = false ->
  _pop_count (final_state (run_requests rs s tr)) =
  to_uint32 (_pop_count s + N.of_nat (pops rs)).
Proof.
  revert s tr. induction rs as [|r rs IH]; intros s tr Hpc Hno.
  - cbn. rewrite N.add_0_r. symmetry. now apply N.mod_small.
  - cbn [run_requests]. unfold bind.
    destruct r as [gm fo fi|fo fi|]; cbn [run_request has_PopAll pops] in *;
      [rewrite Push_spec | rewrite Pop_spec | discriminate].
    + rewrite IH; [reflexivity | exact Hpc | exact Hno].
    + rewrite IH; [|apply uint32_incr_range | exact Hno].
      cbn [_pop_count]. unfold uint32_incr, to_uint32.
      rewrite N.Div0.add_mod_idemp_l. f_equal. lia.
Qed.

(** Within a frame that makes no [PopAll], only the number of [Pop] calls
    and the order of the [Push] calls matter, not how they interleave: when
    the counter does not overflow, a committing [Update] leaves the old
    live stack shortened by that number of modes (or empty), with the
    pending modes above it, last pushed lowest. *)
Theorem a_frame_is_its_pop_count_and_its_pushes s rs video tr :
  pop_count_in_range s ->
  has_PopAll rs = false ->
  (_pop_count s + N.of_nat (pops rs) < UINT32_MODULUS)%N ->
  commits video (final_state (run_requests rs s tr)) = true ->
  _game_stack (final_state ((run_requests rs ;; Update video) s tr)) =
  firstn (length (_game_stack s) - (N.to_nat (_pop_count s) + pops rs))
         (_game_stack s)
  ++ rev (_push_stack s ++ pushed rs).
Proof.
  intros Hpc Hno Hsmall Hc.
  pose proof (run_requests_stacks rs s tr) as [Hgs Hps].
  pose proof (run_requests_in_range rs tr Hpc) as Hpc1.
  pose proof (run_requests_pop_count rs tr Hpc Hno) as Hcount.
  unfold bind.
  destruct (run_requests_returns rs s tr) as (s1 & tr1 & E).
  rewrite E in *. cbn [final_state] in *.
  rewrite Update_with_commit_stack by assumption.
  unfold reconciled, popped. rewrite Hgs, Hps, Hcount.
  unfold to_uint32. rewrite N.mod_small by exact Hsmall.
  do 2 f_equal. lia.
Qed.

Lemma a_frame_is_its_pop_count_and_its_pushes_witness :
  _game_stack
    (final_state
       ((run_requests [ReqPop false false; ReqPush sample_C true false;
                       ReqPop false true] ;;
         Update fading) (idle [sample_A; sample_B; sample_A]) []))
  = [sample_A; sample_C] /\
  _game_stack
    (final_state
       ((run_requests [ReqPush sample_C true false; ReqPop false false;
                       ReqPop false true] ;;
         Update fading) (idle [sample_A; sample_B; sample_A]) []))
  = [sample_A; sample_C].
Proof.
  split.
  - apply (@a_frame_is_its_pop_count_and_its_pushes
             (idle [sample_A; sample_B; sample_A])
             [ReqPop false false; ReqPush sample_C true false;
              ReqPop false true] fading []); reflexivity.
  - apply (@a_frame_is_its_pop_count_and_its_pushes
             (idle [sample_A; sample_B; sample_A])
             [ReqPush sample_C true false; ReqPop false false;
              ReqPop false true] fading []); reflexivity.
Defined.

(** ** After a commit *)

Lemma after_fade_check_stacks video s :
  _game_stack (after_fade_check video s) = _game_stack s /\
  _push_stack (after_fade_check video s) = _push_stack s /\
  _pop_count (after_fade_check video s) = _pop_count s /\
  _state_change (after_fade_check video s) = _state_change s /\
  _fade_in (after_fade_check video s) = _fade_in s.
Proof.
  unfold after_fade_check. now destruct (_fade_out s && _ && _); destruct s.
Qed.

(** A committing [Update] that ends with a mode to run returns with that
    mode on top of a non-empty live stack, the pending buffer empty, the
    counter at zero and both the state change and the finished fade-out
    cleared; so the commit is applied once: whatever the video manager
    says, the next [Update] changes neither vector and does nothing but
    update that same top. *)
Theorem a_commit_is_applied_once s video tr :
  pop_count_in_range s ->
  commits video s = true ->
  reconciled s <> [] ->
  exists s' tr' top,
    Update video s tr = Returns tt s' tr' /\
    _game_stack s' = reconciled s /\
    GetTop s' = Some top /\
    _push_stack s' = [] /\
    _pop_count s' = 0%N /\
    _state_change s' = false /\
    _fade_out_finished s' = false /\
    forall video2 tr2,
    exists s2,
      Update video2 s' tr2 = Returns tt s2 (tr2 ++ [ModeUpdate top]) /\
      _game_stack s2 = reconciled s /\
      _push_stack s2 = [].
Proof.
  intros Hpc Hc Hne. rewrite Update_with_commit by assumption.
  destruct (vector_back (reconciled s)) as [top|] eqn:E.
  - do 3 eexists. split; [reflexivity|].
    rewrite GetTop_spec. cbn [_game_stack _push_stack _pop_count _state_change
                               _fade_out_finished].
    repeat (split; [reflexivity || exact E|]).
    intros video2 tr2. eexists.
    rewrite Update_without_commit.
    + cbn [_game_stack]. unfold update_events. rewrite E.
      split; [reflexivity|].
      match goal with |- context [after_fade_check ?v ?e] =>
        destruct (after_fade_check_stacks v e) as (-> & -> & _) end.
      now cbn.
    + rewrite commits_spec. cbn [_state_change]. apply andb_false_r.
  - destruct (reconciled s); [congruence | discriminate].
Qed.

Lemma a_commit_is_applied_once_witness :
  exists s' tr' top,
    Update no_fade
      (final_state (Push sample_B false true (idle [sample_A]) [])) [] =
    Returns tt s' tr' /\
    _game_stack s' = [sample_A; sample_B] /\
    GetTop s' = Some top /\
    _push_stack s' = [] /\
    _pop_count s' = 0%N /\
    _state_change s' = false /\
    _fade_out_finished s' = false /\
    forall video2 tr2,
    exists s2,
      Update video2 s' tr2 = Returns tt s2 (tr2 ++ [ModeUpdate top]) /\
      _game_stack s2 = [sample_A; sample_B] /\
      _push_stack s2 = [].
Proof.
  apply (@a_commit_is_applied_once
           (final_state (Push sample_B false true (idle [sample_A]) []))
           no_fade []).
  - reflexivity.
  - reflexivity.
  - discriminate.
Defined.

(** ** The end of the fade-out *)

(** After a [Push] or [Pop] that asked for a fade-out, the next [Update]
    commits exactly when the video manager reports that its last fade was
    a transitional one and that it is no longer fading; when it does, the
    fade-out is no longer in progress and the live stack is the reconciled
    one. *)
Theorem the_commit_waits_for_a_finished_transitional_fade
        s r fade_in video tr :
  fade_arguments r = Some (true, fade_in) ->
  pop_count_in_range s ->
  let s1 := final_state (run_request r s tr) in
  let tr1 := trace_of (run_request r s tr) in
  commits video s1 = IsLastFadeTransitional video && negb (IsFading video) /\
  (IsLastFadeTransitional video = true -> IsFading video = false ->
   _game_stack (final_state (Update video s1 tr1)) = reconciled s1 /\
   _fade_out (final_state (Update video s1 tr1)) = false).
Proof.
  intros Hr Hpc s1 tr1.
  pose proof (@run_request_flags r true fade_in s tr Hr)
    as (Hfo & Hff & _ & Hsc).
  fold s1 in Hfo, Hff, Hsc. cbn [negb] in Hff.
  assert (Hpc1 : pop_count_in_range s1).
  { pose proof (run_requests_in_range [r] tr Hpc) as H.
    cbn [run_requests] in H. unfold bind in H. subst s1.
    destruct (run_request_returns r s tr) as (s' & tr' & E).
    rewrite E in *. exact H. }
  assert (Hc : commits video s1 =
               IsLastFadeTransitional video && negb (IsFading video)).
  { rewrite commits_spec, Hsc, andb_true_r. unfold after_fade_check.
    rewrite Hfo. cbn [andb].
    destruct (IsLastFadeTransitional video && negb (IsFading video));
      [now destruct s1 | exact Hff]. }
  split; [exact Hc|].
  intros Hlast Hfading. rewrite Hlast, Hfading in Hc. cbn in Hc.
  split; [now apply Update_with_commit_stack|].
  rewrite Update_with_commit by assumption.
  assert (Hafter : _fade_out (after_fade_check video s1) = false).
  { unfold after_fade_check. rewrite Hfo, Hlast, Hfading. now destruct s1. }
  destruct (vector_back (reconciled s1)); cbn [final_state _fade_out];
    exact Hafter.
Qed.

Lemma the_commit_waits_for_a_finished_transitional_fade_witness :
  let s1 := final_state (Pop true true (idle [sample_A; sample_B]) []) in
  let tr1 := trace_of (Pop true true (idle [sample_A; sample_B]) []) in
  commits (mkVideo true false) s1 = true /\
  commits (mkVideo false false) s1 = false /\
  _game_stack (final_state (Update (mkVideo true false) s1 tr1)) = [sample_A] /\
  _fade_out (final_state (Update (mkVideo true false) s1 tr1)) = false.
Proof.
  destruct (@the_commit_waits_for_a_finished_transitional_fade
              (idle [sample_A; sample_B]) (ReqPop true true) true
              (mkVideo true false) []) as [Hc Hdone]; [reflexivity ..|].
  destruct (@the_commit_waits_for_a_finished_transitional_fade
              (idle [sample_A; sample_B]) (ReqPop true true) true
              (mkVideo false false) []) as [Hc' _]; [reflexivity ..|].
  split; [exact Hc|]. split; [exact Hc'|]. apply Hdone; reflexivity.
Defined.

(** ** Ownership *)

Lemma deleted_activation_events top fi :
  deleted (activation_events top fi) = [].
Proof. reflexivity. Qed.

(** [Update] neither loses nor duplicates a mode: the modes it leaves in
    the two vectors together with the modes destroyed so far are, up to
    order, the modes it found in the two vectors together with those
    destroyed before; in particular every mode it destroys was live, and is
    destroyed once. *)
Theorem Update_conserves_the_modes s video tr :
  pop_count_in_range s ->
  Permutation
    (_game_stack (final_state (Update video s tr)) ++
     _push_stack (final_state (Update video s tr)) ++
     deleted (trace_of (Update video s tr)))
    (_game_stack s ++ _push_stack s ++ deleted tr).
Proof.
  intros Hpc. destruct (commits video s) eqn:Hc.
  - assert (Hperm :
      Permutation
        (reconciled s ++ deleted tr ++
         deleted (pop_events (_pop_count s) (_game_stack s)))
        (_game_stack s ++ _push_stack s ++ deleted tr)).
    { unfold reconciled, popped. rewrite deleted_pop_events.
      set (k := length (_game_stack s) - N.to_nat (_pop_count s)).
      rewrite <- (firstn_skipn k (_game_stack s)) at 3.
      rewrite <- !app_assoc. apply Permutation_app_head.
      rewrite <- !Permutation_rev.
      rewrite (Permutation_app_comm (skipn k (_game_stack s))).
      rewrite <- !app_assoc. reflexivity. }
    rewrite Update_with_commit by assumption.
    destruct (vector_back (reconciled s)) as [top|] eqn:E;
      cbn [final_state trace_of _game_stack _push_stack app].
    + rewrite !deleted_app, deleted_activation_events. cbn [deleted flat_map app].
      rewrite !app_nil_r. exact Hperm.
    + rewrite !deleted_app. cbn [deleted flat_map app]. rewrite !app_nil_r.
      destruct (reconciled s); [exact Hperm | discriminate].
  - rewrite Update_without_commit by assumption.
    cbn [final_state trace_of].
    destruct (after_fade_check_stacks video s) as (-> & -> & _).
    rewrite deleted_app.
    replace (deleted (update_events (_game_stack s))) with (@nil GameMode)
      by (unfold update_events; now destruct (vector_back _)).
    now rewrite app_nil_r.
Qed.

Lemma Update_conserves_the_modes_witness :
  Permutation
    (_game_stack
       (final_state
          (Update no_fade
             (mkEngine [sample_A; sample_B] [sample_C] true 1%N
                       false false true) [])) ++
     _push_stack
       (final_state
          (Update no_fade
             (mkEngine [sample_A; sample_B] [sample_C] true 1%N
                       false false true) [])) ++
     deleted
       (trace_of
          (Update no_fade
             (mkEngine [sample_A; sample_B] [sample_C] true 1%N
                       false false true) [])))
    ([sample_A; sample_B] ++ [sample_C] ++ deleted []).
Proof.
  apply (@Update_conserves_the_modes
           (mkEngine [sample_A; sample_B] [sample_C] true 1%N false false true)
           no_fade []).
  reflexivity.
Defined.

(** ** What an [Update] sends to the modes *)

Lemma filter_is_ModeUpdate_pop_events n v :
  filter is_ModeUpdate (pop_events n v) = [].
Proof.
  unfold pop_events. rewrite filter_app.
  replace (filter is_ModeUpdate
             (if (N.of_nat (length v) <? n)%N
              then [PrintWarning Messages.popped_too_many] else [])) with
    (@nil event) by now destruct (_ <? _)%N.
  rewrite app_nil_r.
  induction (rev (skipn (length v - N.to_nat n) v)) as [|g l IH];
    [reflexivity | exact IH].
Qed.

(** Every [Update] that returns has called the per-frame [Update()] of
    exactly one mode, the one on top of the live stack as it returns, and
    as the last thing it did; on an empty live stack, and in a call that
    runs into the empty stack after a commit, no mode is updated. *)
Theorem Update_updates_the_top_once s video tr :
  pop_count_in_range s ->
  filter is_ModeUpdate (trace_of (Update video s tr)) =
    filter is_ModeUpdate tr ++
    match GetTop (final_state (Update video s tr)) with
    | Some top => [ModeUpdate top]
    | None => []
    end /\
  (forall top,
     returned (Update video s tr) = true ->
     GetTop (final_state (Update video s tr)) = Some top ->
     exists before, trace_of (Update video s tr) = before ++ [ModeUpdate top]).
Proof.
  intros Hpc. destruct (commits video s) eqn:Hc.
  - rewrite Update_with_commit by assumption.
    destruct (vector_back (reconciled s)) as [top|] eqn:E;
      cbn [trace_of final_state returned]; rewrite GetTop_spec;
      cbn [_game_stack].
    + rewrite E. split.
      * now rewrite !filter_app, filter_is_ModeUpdate_pop_events.
      * intros top' _ [= <-]. eexists. rewrite !app_assoc. reflexivity.
    + cbn [vector_back]. split.
      * rewrite !filter_app, filter_is_ModeUpdate_pop_events. cbn.
        now rewrite app_nil_r.
      * discriminate.
  - rewrite Update_without_commit by assumption.
    cbn [trace_of final_state returned]. rewrite GetTop_spec.
    destruct (after_fade_check_stacks video s) as (-> & _).
    unfold update_events. split.
    + rewrite filter_app. now destruct (vector_back (_game_stack s)).
    + intros top _ ->. eauto.
Qed.

Lemma Update_updates_the_top_once_witness :
  filter is_ModeUpdate
    (trace_of
       (Update no_fade
          (final_state (Pop false false (idle [sample_A; sample_B]) []))
          [ModeUpdate sample_B]))
  = filter is_ModeUpdate [ModeUpdate sample_B] ++ [ModeUpdate sample_A] /\
  (forall top,
     returned
       (Update no_fade
          (final_state (Pop false false (idle [sample_A; sample_B]) []))
          [ModeUpdate sample_B]) = true ->
     GetTop
       (final_state
          (Update no_fade
             (final_state (Pop false false (idle [sample_A; sample_B]) []))
             [ModeUpdate sample_B])) = Some top ->
     exists before,
       trace_of
         (Update no_fade
            (final_state (Pop false false (idle [sample_A; sample_B]) []))
            [ModeUpdate sample_B]) = before ++ [ModeUpdate top]).
Proof.
  apply (@Update_updates_the_top_once
           (final_state (Pop false false (idle [sample_A; sample_B]) []))
           no_fade [ModeUpdate sample_B]).
  reflexivity.
Defined.

Lemma filter_is_TransitionalFadeIn_pop_events n v :
  filter is_TransitionalFadeIn (pop_events n v) = [].
Proof.
  unfold pop_events. rewrite filter_app.
  replace (filter is_TransitionalFadeIn
             (if (N.of_nat (length v) <? n)%N
              then [PrintWarning Messages.popped_too_many] else [])) with
    (@nil event) by now destruct (_ <? _)%N.
  rewrite app_nil_r.
  induction (rev (skipn (length v - N.to_nat n) v)) as [|g l IH];
    [reflexivity | exact IH].
Qed.

(** [Update] triggers the fade-in exactly when it commits onto a non-empty
    live stack, once, and with the duration the [_fade_in] flag selects:
    800 when the flag is set, 0 when it is clear; an [Update] that does
    not commit, or that runs into the empty stack, triggers none. *)
Theorem the_fade_in_follows_the_commit s video tr :
  pop_count_in_range s ->
  filter is_TransitionalFadeIn (trace_of (Update video s tr)) =
  filter is_TransitionalFadeIn tr ++
  (if commits video s && returned (Update video s tr)
   then [TransitionalFadeIn (if _fade_in s then 800%N else 0%N)]
   else []).
Proof.
  intros Hpc. destruct (commits video s) eqn:Hc; cbn [andb].
  - rewrite Update_with_commit by assumption.
    destruct (vector_back (reconciled s)) as [top|] eqn:E;
      cbn [trace_of returned].
    + rewrite !filter_app, filter_is_TransitionalFadeIn_pop_events.
      reflexivity.
    + rewrite !filter_app, filter_is_TransitionalFadeIn_pop_events.
      reflexivity.
  - rewrite Update_without_commit by assumption. cbn [trace_of].
    rewrite filter_app. unfold update_events.
    now destruct (vector_back (_game_stack s)).
Qed.

Lemma the_fade_in_follows_the_commit_witness :
  filter is_TransitionalFadeIn
    (trace_of
       (Update no_fade
          (final_state (Push sample_B false true (idle [sample_A]) [])) []))
  = [TransitionalFadeIn 800%N] /\
  filter is_TransitionalFadeIn
    (trace_of (Update no_fade (idle [sample_A]) [])) = [].
Proof.
  split.
  - apply (@the_fade_in_follows_the_commit
             (final_state (Push sample_B false true (idle [sample_A]) []))
             no_fade []).
    reflexivity.
  - apply (@the_fade_in_follows_the_commit (idle [sample_A]) no_fade []).
    reflexivity.
Defined.

(** ** Pops within the depth *)

(** When the pop counter does not exceed the depth of the live stack, the
    pop loop destroys exactly that many modes, from the top down, logs no
    warning, and leaves the modes below them in place with the counter at
    zero. *)
Theorem pops_within_the_depth_are_exact s tr :
  pop_count_in_range s ->
  (_pop_count s <= N.of_nat (length (_game_stack s)))%N ->
  exists s',
    pop_loop s tr =
    Returns tt s'
      (tr ++ map Delete
               (rev (skipn (length (_game_stack s) - N.to_nat (_pop_count s))
                           (_game_stack s)))) /\
    _game_stack s' =
      firstn (length (_game_stack s) - N.to_nat (_pop_count s))
             (_game_stack s) /\
    length (_game_stack s') =
      length (_game_stack s) - N.to_nat (_pop_count s) /\
    _pop_count s' = 0%N /\
    _push_stack s' = _push_stack s.
Proof.
  intros Hpc Hle. destruct s as [gs ps sc pc fo fi ff].
  cbn [_game_stack _pop_count _push_stack] in *.
  rewrite pop_loop_spec by exact Hpc.
  unfold pop_events, popped.
  destruct (N.ltb_spec (N.of_nat (length gs)) pc); [lia|].
  rewrite app_nil_r. eexists. split; [reflexivity|].
  cbn [_game_stack _pop_count _push_stack].
  rewrite length_firstn. repeat split; lia.
Qed.

Lemma pops_within_the_depth_are_exact_witness :
  exists s',
    pop_loop
      (mkEngine [sample_A; sample_B; sample_C] [] true 2%N false false true)
      [] =
    Returns tt s' ([] ++ map Delete (rev [sample_B; sample_C])) /\
    _game_stack s' = [sample_A] /\
    length (_game_stack s') = 1 /\
    _pop_count s' = 0%N /\
    _push_stack s' = [].
Proof.
  apply (@pops_within_the_depth_are_exact
           (mkEngine [sample_A; sample_B; sample_C] [] true 2%N
                     false false true) []);
    [reflexivity | discriminate].
Defined.

(** ** Tearing down *)

Lemma delete_game_stack_step s tr :
  delete_game_stack s tr =
  match delete_game_stack_pass s tr with
  | inl o => o
  | inr (s', tr') => delete_game_stack s' tr'
  end.
Proof.
  funelim (delete_game_stack s tr);
    match goal with E : delete_game_stack_pass _ _ = _ |- _ => rewrite E end;
    reflexivity.
Qed.

Lemma delete_push_stack_step s tr :
  delete_push_stack s tr =
  match delete_push_stack_pass s tr with
  | inl o => o
  | inr (s', tr') => delete_push_stack s' tr'
  end.
Proof.
  funelim (delete_push_stack s tr);
    match goal with E : delete_push_stack_pass _ _ = _ |- _ => rewrite E end;
    reflexivity.
Qed.

Lemma delete_game_stack_spec gs ps sc pc fo fi ff tr :
  delete_game_stack (mkEngine gs ps sc pc fo fi ff) tr =
  Returns tt (mkEngine [] ps sc pc fo fi ff) (tr ++ map Delete (rev gs)).
Proof.
  revert tr. induction gs as [|x gs IH] using rev_ind; intros tr;
    rewrite delete_game_stack_step; unfold delete_game_stack_pass;
    cbn [_game_stack].
  - cbn. now rewrite app_nil_r.
  - destruct (N.eqb_spec (N.of_nat (length (gs ++ [x]))) 0) as [E|_].
    + rewrite length_app in E. cbn in E. lia.
    + unfold game_stack_back, game_stack_pop_back, emit, modify, get, ret, bind.
      cbn [_game_stack]. rewrite vector_back_snoc.
      unfold set_game_stack. cbn [_game_stack _push_stack
        _state_change _pop_count _fade_out _fade_in _fade_out_finished].
      rewrite vector_pop_back_snoc.
      cbn [_game_stack _push_stack
        _state_change _pop_count _fade_out _fade_in _fade_out_finished].
      rewrite IH, rev_app_distr. cbn [rev app map].
      now rewrite <- app_assoc.
Qed.

Lemma delete_push_stack_spec gs ps sc pc fo fi ff tr :
  delete_push_stack (mkEngine gs ps sc pc fo fi ff) tr =
  Returns tt (mkEngine gs [] sc pc fo fi ff) (tr ++ map Delete (rev ps)).
Proof.
  revert tr. induction ps as [|x ps IH] using rev_ind; intros tr;
    rewrite delete_push_stack_step; unfold delete_push_stack_pass;
    cbn [_push_stack].
  - cbn. now rewrite app_nil_r.
  - destruct (N.eqb_spec (N.of_nat (length (ps ++ [x]))) 0) as [E|_].
    + rewrite length_app in E. cbn in E. lia.
    + unfold push_stack_back, push_stack_pop_back, emit, modify, get, ret, bind.
      cbn [_push_stack]. rewrite vector_back_snoc.
      unfold set_push_stack. cbn [_game_stack _push_stack
        _state_change _pop_count _fade_out _fade_in _fade_out_finished].
      rewrite vector_pop_back_snoc.
      cbn [_game_stack _push_stack
        _state_change _pop_count _fade_out _fade_in _fade_out_finished].
      rewrite IH, rev_app_distr. cbn [rev app map].
      now rewrite <- app_assoc.
Qed.

Lemma SingletonInitialize_spec s tr :
  SingletonInitialize s tr =
  Returns true
    (mkEngine [] [] (_state_change s) 0%N
              (_fade_out s) (_fade_in s) (_fade_out_finished s))
    (tr ++ map Delete (rev (_game_stack s) ++ rev (_push_stack s))).
Proof.
  destruct s as [gs ps sc pc fo fi ff].
  unfold SingletonInitialize, bind.
  rewrite delete_game_stack_spec, delete_push_stack_spec.
  now rewrite map_app, <- app_assoc.
Qed.

(** [SingletonInitialize] and the destructor always return; each destroys
    every live mode, from the top down, and then every pending mode, last
    pushed first, each exactly once, and leaves both vectors empty.
    [SingletonInitialize] answers [true] and zeroes the pop counter; the
    state change and the fade flags it leaves as they were. *)
Theorem teardown_destroys_every_mode_once s tr :
  SingletonInitialize s tr =
    Returns true
      (mkEngine [] [] (_state_change s) 0%N
                (_fade_out s) (_fade_in s) (_fade_out_finished s))
      (tr ++ map Delete (rev (_game_stack s) ++ rev (_push_stack s))) /\
  ModeEngine_delete s tr =
    Returns tt
      (mkEngine [] [] (_state_change s) (_pop_count s)
                (_fade_out s) (_fade_in s) (_fade_out_finished s))
      (tr ++ map Delete (rev (_game_stack s) ++ rev (_push_stack s))) /\
  Permutation
    (deleted (map Delete (rev (_game_stack s) ++ rev (_push_stack s))))
    (_game_stack s ++ _push_stack s).
Proof.
  split; [apply SingletonInitialize_spec|].
  destruct s as [gs ps sc pc fo fi ff].
  cbn [_game_stack _push_stack _state_change _pop_count _fade_out _fade_in
       _fade_out_finished].
  unfold ModeEngine_delete, bind.
  rewrite delete_game_stack_spec, delete_push_stack_spec.
  rewrite map_app, <- app_assoc. split; [reflexivity|].
  rewrite <- map_app.
  replace (deleted (map Delete (rev gs ++ rev ps))) with (rev gs ++ rev ps).
  - now rewrite <- !Permutation_rev.
  - induction (rev gs ++ rev ps) as [|g l IH]; [reflexivity|].
    cbn. now f_equal.
Qed.

(** [SingletonInitialize] does not cancel a request: called while a state
    change is pending and the fade-out is marked finished, it leaves both
    flags set, so the next [Update] commits on the emptied engine, warns,
    requests the exit and goes on to [_game_stack.back()] of the empty
    vector. *)
Theorem SingletonInitialize_keeps_the_state_change s video tr :
  _state_change s = true ->
  _fade_out_finished s = true ->
  exists s',
    (SingletonInitialize ;; Update video) s tr =
    Undefined s'
      (tr ++ map Delete (rev (_game_stack s) ++ rev (_push_stack s)) ++
       [PrintWarning Messages.stack_is_empty; ExitGame]) /\
    _game_stack s' = [].
Proof.
  intros Hsc Hff. unfold bind.
  rewrite SingletonInitialize_spec.
  rewrite Update_with_commit.
  - cbn. eexists. split; [now rewrite <- app_assoc | reflexivity].
  - reflexivity.
  - apply finished_commits; [exact Hff | exact Hsc].
Qed.

Lemma SingletonInitialize_keeps_the_state_change_witness :
  exists s',
    (SingletonInitialize ;; Update no_fade)
      (final_state (Push sample_B false false (idle [sample_A]) [])) [] =
    Undefined s'
      ([] ++ map Delete (rev [sample_A] ++ rev [sample_B]) ++
       [PrintWarning Messages.stack_is_empty; ExitGame]) /\
    _game_stack s' = [].
Proof.
  apply (@SingletonInitialize_keeps_the_state_change
           (final_state (Push sample_B false false (idle [sample_A]) []))
           no_fade []); reflexivity.
Defined.

(** ** [PopAll] with a [Push] *)

(** [PopAll()] followed by a [Push] without fade-out replaces the live
    stack at the next [Update]: every mode that was live is destroyed
    once, from the top down, without a warning, and the live stack then
    holds the pending modes only; with nothing else pending, the pushed
    mode alone, on top. *)
Theorem PopAll_then_Push_replaces_the_live_stack s gm fade_in video tr :
  (N.of_nat (length (_game_stack s)) < UINT32_MODULUS)%N ->
  exists s' tr',
    (PopAll ;; Push gm false fade_in ;; Update video) s tr =
    Returns tt s' (tr ++ map Delete (rev (_game_stack s)) ++ tr') /\
    deleted tr' = [] /\
    filter is_PrintWarning tr' = [] /\
    _game_stack s' = rev (_push_stack s ++ [gm]) /\
    (_push_stack s = [] -> _game_stack s' = [gm] /\ GetTop s' = Some gm).
Proof.
  intros Hlen. unfold bind. rewrite PopAll_spec, Push_spec.
  destruct s as [gs ps sc pc fo fi ff].
  cbn [set_pop_count _game_stack _push_stack _pop_count fade_out_events] in *.
  rewrite app_nil_r.
  rewrite Update_with_commit;
    [|apply to_uint32_range | now apply finished_commits].
  unfold reconciled.
  cbn [_game_stack _push_stack _pop_count _fade_in].
  unfold to_uint32. rewrite N.mod_small by exact Hlen.
  rewrite popped_all by lia. cbn [app].
  unfold pop_events. rewrite Nat2N.id, Nat.sub_diag, N.ltb_irrefl.
  cbn [skipn]. rewrite app_nil_r, rev_app_distr. cbn [rev app vector_back].
  do 2 eexists. split; [reflexivity|].
  split; [reflexivity|]. split; [reflexivity|]. split; [reflexivity|].
  intros ->. now cbn.
Qed.

Lemma PopAll_then_Push_replaces_the_live_stack_witness :
  exists s' tr',
    (PopAll ;; Push sample_C false false ;; Update fading)
      (idle [sample_A; sample_B]) [] =
    Returns tt s' ([] ++ map Delete (rev [sample_A; sample_B]) ++ tr') /\
    deleted tr' = [] /\
    filter is_PrintWarning tr' = [] /\
    _game_stack s' = [sample_C] /\
    GetTop s' = Some sample_C.
Proof.
  destruct (@PopAll_then_Push_replaces_the_live_stack
              (idle [sample_A; sample_B]) sample_C false fading [])
    as (s' & tr' & Hrun & Hdel & Hwarn & Hgs & Hone).
  - reflexivity.
  - destruct (Hone eq_refl) as [H1 H2].
    exists s', tr'.
    split; [exact Hrun|]. split; [exact Hdel|]. split; [exact Hwarn|].
    split; [exact H1 | exact H2].
Defined.

(** ** The flags over whole runs *)

Lemma consistent_iff s :
  consistent s = true <->
  pop_count_in_range s /\
  (_push_stack s <> [] -> _state_change s = true) /\
  (_fade_out s = true -> _state_change s = true) /\
  _fade_out_finished s = (_state_change s && negb (_fade_out s)).
Proof.
  unfold consistent, pop_count_in_range.
  rewrite !andb_true_iff, N.ltb_lt, eqb_true_iff.
  destruct s as [gs [|p ps] [|] pc [|] fi [|]]; cbn;
    intuition (try congruence; try discriminate).
Qed.

Lemma consistent_run_request r s tr :
  consistent s = true ->
  consistent (final_state (run_request r s tr)) = true.
Proof.
  intros H. apply consistent_iff in H. destruct H as (Hpc & Hps & Hfo & Hff).
  apply consistent_iff. unfold pop_count_in_range in *.
  destruct r as [gm fo fi|fo fi|]; cbn [run_request];
    rewrite ?Push_spec, ?Pop_spec, ?PopAll_spec;
    cbn [final_state _pop_count _push_stack _state_change _fade_out
         _fade_out_finished].
  - destruct fo; cbn; auto.
  - destruct fo; cbn; repeat split; auto; apply uint32_incr_range.
  - destruct s; cbn in *. repeat split; auto. apply to_uint32_range.
Qed.

Lemma consistent_after_fade_check video s :
  consistent s = true -> consistent (after_fade_check video s) = true.
Proof.
  intros H. apply consistent_iff in H. apply consistent_iff.
  unfold after_fade_check, pop_count_in_range in *.
  destruct s as [gs ps [|] pc [|] fi [|]], video as [[|] [|]]; cbn in *;
    intuition congruence.
Qed.

Lemma commits_fade_out_over video s :
  consistent s = true -> commits video s = true ->
  _fade_out (after_fade_check video s) = false.
Proof.
  intros H. apply consistent_iff in H.
  rewrite commits_spec. unfold after_fade_check, pop_count_in_range in *.
  destruct s as [gs ps [|] pc [|] fi [|]], video as [[|] [|]]; cbn in *;
    intuition congruence.
Qed.

Lemma consistent_Update video s tr :
  consistent s = true ->
  consistent (final_state (Update video s tr)) = true.
Proof.
  intros H. destruct (commits video s) eqn:Hc.
  - assert (Hpc : pop_count_in_range s) by now apply consistent_iff in H.
    rewrite Update_with_commit by assumption.
    rewrite (@commits_fade_out_over video s H Hc).
    now destruct (vector_back (reconciled s)).
  - rewrite Update_without_commit by assumption.
    now apply consistent_after_fade_check.
Qed.

Lemma consistent_run_steps sts s tr :
  consistent s = true ->
  consistent (final_state (run_steps sts s tr)) = true.
Proof.
  revert s tr. induction sts as [|st sts IH]; intros s tr H; [exact H|].
  cbn [run_steps]. unfold bind.
  assert (Hst : consistent (final_state (run_step st s tr)) = true).
  { destruct st as [r|video|d]; cbn [run_step].
    - now apply consistent_run_request.
    - now apply consistent_Update.
    - now rewrite run_draw_spec. }
  destruct (run_step st s tr) as [[] s1 tr1|s1 tr1]; cbn [final_state] in *.
  - now apply IH.
  - exact Hst.
Qed.

(** However requests, updates and draws follow one another on a freshly
    constructed engine, the engine they leave (also the one a call that
    runs into the empty stack leaves) keeps its flags in step: the counter
    is below [2^32]; a pending push or a fade-out in progress always comes
    with a pending state change, so no pushed mode is left behind
    unannounced; and the fade-out counts as finished exactly when a state
    change is pending and no fade-out is in progress. *)
Theorem every_run_keeps_the_flags_in_step sts fade_in_garbage :
  let s := final_state (run_steps sts (ModeEngine_new fade_in_garbage) []) in
  pop_count_in_range s /\
  (_push_stack s <> [] -> _state_change s = true) /\
  (_fade_out s = true -> _state_change s = true) /\
  _fade_out_finished s = (_state_change s && negb (_fade_out s)).
Proof.
  intros s. apply consistent_iff. subst s.
  apply consistent_run_steps. reflexivity.
Qed.

(** In the engine any such run leaves, the next [Update] commits exactly
    when a state change is pending and either no fade-out is in progress
    or the video manager reports its last fade transitional and over. *)
Theorem when_the_next_Update_commits sts fade_in_garbage video :
  let s := final_state (run_steps sts (ModeEngine_new fade_in_garbage) []) in
  commits video s =
  _state_change s &&
  (negb (_fade_out s) ||
   (IsLastFadeTransitional video && negb (IsFading video))).
Proof.
  intros s.
  assert (H : consistent s = true)
    by (subst s; now apply consistent_run_steps).
  clearbody s. apply consistent_iff in H.
  rewrite commits_spec. unfold after_fade_check, pop_count_in_range in *.
  destruct s as [gs ps [|] pc [|] fi [|]], video as [[|] [|]]; cbn in *;
    intuition congruence.
Qed.

(** In the engine any such run leaves with no state change pending, an
    [Update] changes nothing at all in the engine, whatever the video
    manager reports: it only updates the mode on top, if there is one. *)
Theorem a_quiet_Update_changes_nothing sts fade_in_garbage video tr :
  let s := final_state (run_steps sts (ModeEngine_new fade_in_garbage) []) in
  _state_change s = false ->
  Update video s tr = Returns tt s (tr ++ update_events (_game_stack s)).
Proof.
  intros s Hsc.
  assert (H : consistent s = true)
    by (subst s; now apply consistent_run_steps).
  clearbody s. apply consistent_iff in H. destruct H as (_ & _ & Hfo & _).
  assert (Hfo' : _fade_out s = false).
  { destruct (_fade_out s); [|reflexivity]. rewrite Hfo in Hsc; congruence. }
  assert (Hs : after_fade_check video s = s)
    by (unfold after_fade_check; now rewrite Hfo').
  rewrite Update_without_commit.
  - now rewrite Hs.
  - rewrite commits_spec, Hsc. apply andb_false_r.
Qed.

Lemma a_quiet_Update_changes_nothing_witness :
  let s :=
    final_state
      (run_steps [DoRequest (ReqPush sample_A false true); DoUpdate no_fade;
                  DoDraw CallDraw]
                 (ModeEngine_new true) []) in
  Update fading s [] = Returns tt s ([] ++ [ModeUpdate sample_A]).
Proof.
  apply (@a_quiet_Update_changes_nothing
           [DoRequest (ReqPush sample_A false true); DoUpdate no_fade;
            DoDraw CallDraw] true fading []).
  reflexivity.
Defined.

(** ** When [Update] fails *)

Lemma filter_is_ExitGame_pop_events n v :
  filter is_ExitGame (pop_events n v) = [].
Proof.
  unfold pop_events. rewrite filter_app.
  replace (filter is_ExitGame
             (if (N.of_nat (length v) <? n)%N
              then [PrintWarning Messages.popped_too_many] else [])) with
    (@nil event) by now destruct (_ <? _)%N.
  rewrite app_nil_r.
  induction (rev (skipn (length v - N.to_nat n) v)) as [|g l IH];
    [reflexivity | exact IH].
Qed.

(** [Update] returns in every case but one: it runs into [back()] of an
    empty vector exactly when it commits and the pops and pushes leave no
    live mode; and it requests the exit in exactly that case, once.  In
    particular an [Update] with a push pending always returns and never
    requests the exit. *)
Theorem Update_fails_only_on_an_empty_commit s video tr :
  pop_count_in_range s ->
  returned (Update video s tr) =
    negb (commits video s && vector_empty (reconciled s)) /\
  filter is_ExitGame (trace_of (Update video s tr)) =
    filter is_ExitGame tr ++
    (if commits video s && vector_empty (reconciled s)
     then [ExitGame] else []) /\
  (_push_stack s <> [] -> vector_empty (reconciled s) = false).
Proof.
  intros Hpc. split; [|split].
  - destruct (commits video s) eqn:Hc; cbn [andb].
    + rewrite Update_with_commit by assumption.
      now destruct (reconciled s) as [|g v].
    + now rewrite Update_without_commit by assumption.
  - destruct (commits video s) eqn:Hc; cbn [andb].
    + rewrite Update_with_commit by assumption.
      destruct (reconciled s) as [|g v]; cbn [vector_back vector_empty trace_of];
        rewrite !filter_app, filter_is_ExitGame_pop_events; reflexivity.
    + rewrite Update_without_commit by assumption. cbn [trace_of].
      rewrite filter_app. unfold update_events.
      now destruct (vector_back (_game_stack s)).
  - intros Hne. unfold reconciled.
    destruct (_push_stack s) as [|p ps] using rev_ind; [congruence|].
    rewrite rev_app_distr. cbn [rev app].
    now destruct (popped (_pop_count s) (_game_stack s)).
Qed.

Lemma Update_fails_only_on_an_empty_commit_witness :
  returned
    (Update no_fade
       (final_state
          (run_requests [ReqPop false false; ReqPop false false]
                        (idle [sample_A]) [])) []) = false /\
  returned
    (Update no_fade
       (final_state
          (run_requests [ReqPop false false; ReqPush sample_B false false]
                        (idle [sample_A]) [])) []) = true.
Proof.
  split.
  - apply (@Update_fails_only_on_an_empty_commit
             (final_state
                (run_requests [ReqPop false false; ReqPop false false]
                              (idle [sample_A]) [])) no_fade []).
    reflexivity.
  - apply (@Update_fails_only_on_an_empty_commit
             (final_state
                (run_requests [ReqPop false false; ReqPush sample_B false false]
                              (idle [sample_A]) [])) no_fade []).
    reflexivity.
Defined.

(** ** [PopAll] among other requests *)



(** * Properties of the skill graph window *)

Module SkillGraphWindowProperties.
Import SkillGraphWindow.

(** [isNodeWithin] answers [true] exactly for the ids that occur among the
    links. *)
Theorem isNodeWithin_iff_In node_links node_id :
  isNodeWithin node_links node_id = true <-> In node_id node_links.
Proof.
  induction node_links as [|node_link rest IH]; cbn [isNodeWithin In].
  - split; [discriminate | tauto].
  - destruct (N.eqb_spec node_link node_id) as [->|Hne].
    + tauto.
    + rewrite IH. intuition congruence.
Qed.

(** [_ResetSkillGraphView] leaves the character and [_character_node_id]
    alone, and leaves as selected node either a node of the graph, whose
    view it then updates (the node that was selected if the graph has it,
    node 0 otherwise), or, when the graph has neither, the invalid id
    [UINT32_MAX], with the empty offset set and the warning printed and no
    view update. *)
Theorem ResetSkillGraphView_selects_a_node_or_none skill_graph w :
  let w' := fst (ResetSkillGraphView skill_graph w) in
  let calls := snd (ResetSkillGraphView skill_graph w) in
  _selected_character w' = _selected_character w /\
  _character_node_id w' = _character_node_id w /\
  ((exists node,
      skill_graph (_selected_node_id w') = Some node /\
      calls = [UpdateSkillGraphView [false]] /\
      (_selected_node_id w' = _selected_node_id w \/
       skill_graph (_selected_node_id w) = None /\ _selected_node_id w' = 0%N))
   \/
   (skill_graph (_selected_node_id w) = None /\
    skill_graph 0%N = None /\
    _selected_node_id w' = UINT32_MAX /\
    calls = [SetEmptyOffset; PrintWarning Texts.empty_view])).
Proof.
  unfold ResetSkillGraphView.
  destruct (skill_graph (_selected_node_id w)) as [node|] eqn:E.
  - cbn. repeat split. left. exists node. auto.
  - destruct (skill_graph 0%N) as [node0|] eqn:E0; cbn.
    + repeat split. left. exists node0. auto.
    + repeat split. right. auto.
Qed.

Lemma items_available_forallb inventory items :
  items_available inventory items =
  forallb (item_available inventory) items.
Proof.
  induction items as [|item rest IH]; [reflexivity|].
  cbn [items_available forallb]. unfold item_available at 1.
  destruct (inventory (fst item)) as [count|]; [|reflexivity].
  rewrite N.ltb_antisym.
  destruct (snd item <=? count)%N; cbn; [exact IH | reflexivity].
Qed.

Lemma scan_step_linked node id :
  existsb (fun child => (child =? id)%N) (GetChildrenNodeLinks node) ||
  existsb (fun parent => (parent =? id)%N) (GetParentNodeLinks node) =
  linked node id.
Proof.
  assert (Hsym : forall l : list uint32,
            existsb (fun x => (x =? id)%N) l = existsb (N.eqb id) l).
  { induction l as [|x l IH]; [reflexivity|].
    cbn [existsb]. now rewrite IH, N.eqb_sym. }
  unfold linked. now rewrite existsb_app, !Hsym.
Qed.

Lemma scan_obtained_cons node id rest :
  scan_obtained node (id :: rest) =
  if (GetId node =? id)%N then AlreadyObtained
  else if linked node id then NeighborObtained
  else scan_obtained node rest.
Proof. cbn [scan_obtained]. now rewrite scan_step_linked. Qed.

(** A scan that stops at a neighbour has found an obtained node that is
    linked to the node. *)
Lemma scan_NeighborObtained node obtained :
  scan_obtained node obtained = NeighborObtained ->
  existsb (linked node) obtained = true.
Proof.
  induction obtained as [|id rest IH]; [discriminate|].
  rewrite scan_obtained_cons. cbn [existsb].
  destruct (GetId node =? id)%N; [discriminate|].
  destruct (linked node id); [reflexivity|]. exact IH.
Qed.

(** On a list that does not hold the node itself the scan only tells
    whether a linked node is in it. *)
Lemma scan_obtained_new node obtained :
  ~ In (GetId node) obtained ->
  scan_obtained node obtained =
  if existsb (linked node) obtained then NeighborObtained else NoNeighbor.
Proof.
  induction obtained as [|id rest IH]; intros Hnot; [reflexivity|].
  rewrite scan_obtained_cons. cbn [existsb].
  destruct (N.eqb_spec (GetId node) id) as [Heq|Hne].
  - exfalso. apply Hnot. left. now symmetry.
  - destruct (linked node id); [reflexivity|].
    apply IH. intros Hin. apply Hnot. now right.
Qed.

Lemma scan_obtained_neighbor_first node before neighbor after :
  ~ In (GetId node) before ->
  GetId node <> neighbor ->
  linked node neighbor = true ->
  scan_obtained node (before ++ neighbor :: after) = NeighborObtained.
Proof.
  intros Hnot Hne Hlinked.
  induction before as [|id rest IH]; cbn [app]; rewrite scan_obtained_cons.
  - destruct (N.eqb_spec (GetId node) neighbor); [congruence|].
    now rewrite Hlinked.
  - destruct (N.eqb_spec (GetId node) id) as [Heq|_].
    + exfalso. apply Hnot. left. now symmetry.
    + destruct (linked node id); [reflexivity|].
      apply IH. intros Hin. apply Hnot. now right.
Qed.

Section Character.

Variable AddObtainedSkillNode : GlobalCharacter -> uint32 -> GlobalCharacter.
Variable IsSkillNodeObtained : GlobalCharacter -> uint32 -> bool.

(** [_HandleNodeTransaction] never gives a node away: whenever it calls
    [AddObtainedSkillNode], the confirm key was pressed, a character is
    selected, the selected id names a node of the graph, it is that node
    that is obtained, and for it the character has the experience and the
    items needed, does not stand on it and has obtained one of its
    neighbours. *)
Theorem a_node_is_only_obtained_when_purchasable
        ConfirmPress skill_graph inventory w w' calls :
  HandleNodeTransaction AddObtainedSkillNode IsSkillNodeObtained
    ConfirmPress skill_graph inventory w = Done w' calls ->
  existsb is_AddObtainedSkillNodeCall calls = true ->
  exists character node,
    ConfirmPress = true /\
    _selected_character w = Some character /\
    skill_graph (_selected_node_id w) = Some node /\
    purchasable inventory character node = true /\
    Done w' calls =
      purchase AddObtainedSkillNode IsSkillNodeObtained w character node.
Proof.
  unfold HandleNodeTransaction.
  destruct ConfirmPress; cbn [negb]; [|intros [= <- <-]; discriminate].
  destruct (_selected_character w) as [character|];
    [|intros [= <- <-]; discriminate].
  destruct (skill_graph (_selected_node_id w)) as [node|]; [|discriminate].
  rewrite N.ltb_antisym, items_available_forallb.
  destruct (GetExperiencePointsNeeded node <=?
            GetUnspentExperiencePoints character)%N eqn:Exp;
    cbn [negb]; [|intros [= <- <-]; discriminate].
  destruct (forallb (item_available inventory) (GetItemsNeeded node))
    eqn:Eitems; cbn [negb]; [|intros [= <- <-]; discriminate].
  destruct (GetSkillNodeLocation character =? GetId node)%N eqn:Eloc;
    [intros [= <- <-]; discriminate|].
  destruct (scan_obtained node (GetObtainedSkillNodes character)) eqn:Escan;
    try (intros [= <- <-]; discriminate).
  intros [= <- <-] _. exists character, node.
  repeat (split; [reflexivity|]). split; [|reflexivity].
  apply scan_NeighborObtained in Escan.
  unfold purchasable. now rewrite Exp, Eitems, Eloc, Escan.
Qed.

(** For a node the character has not obtained yet, a confirmed transaction
    buys it exactly when it is purchasable; when it is not, the window and
    the character stay as they are and the only thing that happens is the
    bump sound. *)
Theorem a_new_node_is_bought_exactly_when_purchasable
        skill_graph inventory w character node :
  _selected_character w = Some character ->
  skill_graph (_selected_node_id w) = Some node ->
  ~ In (GetId node) (GetObtainedSkillNodes character) ->
  HandleNodeTransaction AddObtainedSkillNode IsSkillNodeObtained
    true skill_graph inventory w =
  if purchasable inventory character node
  then purchase AddObtainedSkillNode IsSkillNodeObtained w character node
  else Done w [PlaySound Texts.bump].
Proof.
  intros Hch Hnode Hnew.
  unfold HandleNodeTransaction, purchasable. cbn [negb].
  rewrite Hch, Hnode, N.ltb_antisym, items_available_forallb.
  destruct (GetExperiencePointsNeeded node <=?
            GetUnspentExperiencePoints character)%N;
    cbn [negb andb]; [|reflexivity].
  destruct (forallb _ (GetItemsNeeded node)); cbn [negb andb]; [|reflexivity].
  destruct (GetSkillNodeLocation character =? GetId node)%N;
    cbn [negb andb]; [reflexivity|].
  rewrite scan_obtained_new by exact Hnew.
  now destruct (existsb (linked node) (GetObtainedSkillNodes character)).
Qed.

(** The check against buying a node twice only looks at the obtained nodes
    that come before the first obtained neighbour: when a neighbour
    precedes every occurrence of the node in the character's list of
    obtained nodes, a confirmed transaction that passes the experience,
    item and location checks buys the node, also when the node is further
    down that list. *)
Theorem a_node_behind_a_neighbour_is_bought_again
        skill_graph inventory w character node before neighbor after :
  _selected_character w = Some character ->
  skill_graph (_selected_node_id w) = Some node ->
  GetObtainedSkillNodes character = before ++ neighbor :: after ->
  ~ In (GetId node) before ->
  GetId node <> neighbor ->
  In neighbor (GetChildrenNodeLinks node ++ GetParentNodeLinks node) ->
  (GetExperiencePointsNeeded node <= GetUnspentExperiencePoints character)%N ->
  items_available inventory (GetItemsNeeded node) = true ->
  GetSkillNodeLocation character <> GetId node ->
  HandleNodeTransaction AddObtainedSkillNode IsSkillNodeObtained
    true skill_graph inventory w =
  purchase AddObtainedSkillNode IsSkillNodeObtained w character node.
Proof.
  intros Hch Hnode Hlist Hbefore Hne Hin Hxp Hitems Hloc.
  unfold HandleNodeTransaction. cbn [negb].
  rewrite Hch, Hnode, Hitems. cbn [negb].
  destruct (N.ltb_spec (GetUnspentExperiencePoints character)
                       (GetExperiencePointsNeeded node)); [lia|].
  destruct (N.eqb_spec (GetSkillNodeLocation character) (GetId node));
    [congruence|].
  rewrite Hlist, scan_obtained_neighbor_first; [reflexivity | assumption ..|].
  unfold linked. apply existsb_exists. exists neighbor.
  split; [exact Hin | apply N.eqb_refl].
Qed.

End Character.

Lemma a_node_is_only_obtained_when_purchasable_witness :
  exists character node,
    true = true /\
    Some (mkCharacter 150%N 4%N [4%N]) = Some character /\
    sample_graph 5%N = Some node /\
    purchasable sample_inventory character node = true /\
    Done (mkWindow (Some (mkCharacter 150%N 5%N [5%N; 4%N])) 5%N 5%N)
         [AddObtainedSkillNodeCall 5%N; PlaySound Texts.confirm;
          UpdateSkillGraphView [true; true];
          BottomInfoSetNode sample_node 150%N true;
          ReloadCharacterWindows] =
      purchase sample_AddObtainedSkillNode sample_IsSkillNodeObtained
        (mkWindow (Some (mkCharacter 150%N 4%N [4%N])) 5%N 4%N)
        character node.
Proof.
  apply (@a_node_is_only_obtained_when_purchasable
           sample_AddObtainedSkillNode sample_IsSkillNodeObtained
           true sample_graph sample_inventory
           (mkWindow (Some (mkCharacter 150%N 4%N [4%N])) 5%N 4%N)
           (mkWindow (Some (mkCharacter 150%N 5%N [5%N; 4%N])) 5%N 5%N)
           [AddObtainedSkillNodeCall 5%N; PlaySound Texts.confirm;
            UpdateSkillGraphView [true; true];
            BottomInfoSetNode sample_node 150%N true;
            ReloadCharacterWindows]);
    reflexivity.
Defined.

Lemma a_new_node_is_bought_exactly_when_purchasable_witness :
  HandleNodeTransaction sample_AddObtainedSkillNode sample_IsSkillNodeObtained
    true sample_graph sample_inventory
    (mkWindow (Some (mkCharacter 150%N 4%N [4%N])) 5%N 4%N) =
  purchase sample_AddObtainedSkillNode sample_IsSkillNodeObtained
    (mkWindow (Some (mkCharacter 150%N 4%N [4%N])) 5%N 4%N)
    (mkCharacter 150%N 4%N [4%N]) sample_node /\
  HandleNodeTransaction sample_AddObtainedSkillNode sample_IsSkillNodeObtained
    true sample_graph sample_inventory
    (mkWindow (Some (mkCharacter 99%N 4%N [4%N])) 5%N 4%N) =
  Done (mkWindow (Some (mkCharacter 99%N 4%N [4%N])) 5%N 4%N)
       [PlaySound Texts.bump].
Proof.
  split.
  - apply (@a_new_node_is_bought_exactly_when_purchasable
             sample_AddObtainedSkillNode sample_IsSkillNodeObtained
             sample_graph sample_inventory
             (mkWindow (Some (mkCharacter 150%N 4%N [4%N])) 5%N 4%N)
             (mkCharacter 150%N 4%N [4%N]) sample_node);
      [reflexivity | reflexivity |].
    cbn. intros [H|[]]. discriminate H.
  - apply (@a_new_node_is_bought_exactly_when_purchasable
             sample_AddObtainedSkillNode sample_IsSkillNodeObtained
             sample_graph sample_inventory
             (mkWindow (Some (mkCharacter 99%N 4%N [4%N])) 5%N 4%N)
             (mkCharacter 99%N 4%N [4%N]) sample_node);
      [reflexivity | reflexivity |].
    cbn. intros [H|[]]. discriminate H.
Defined.

Lemma a_node_behind_a_neighbour_is_bought_again_witness :
  In 5%N [4%N; 5%N] /\
  HandleNodeTransaction sample_AddObtainedSkillNode sample_IsSkillNodeObtained
    true sample_graph sample_inventory
    (mkWindow (Some (mkCharacter 150%N 4%N [4%N; 5%N])) 5%N 4%N) =
  purchase sample_AddObtainedSkillNode sample_IsSkillNodeObtained
    (mkWindow (Some (mkCharacter 150%N 4%N [4%N; 5%N])) 5%N 4%N)
    (mkCharacter 150%N 4%N [4%N; 5%N]) sample_node.
Proof.
  split; [cbn; auto|].
  apply (@a_node_behind_a_neighbour_is_bought_again
           sample_AddObtainedSkillNode sample_IsSkillNodeObtained
           sample_graph sample_inventory
           (mkWindow (Some (mkCharacter 150%N 4%N [4%N; 5%N])) 5%N 4%N)
           (mkCharacter 150%N 4%N [4%N; 5%N]) sample_node [] 4%N [5%N]).
  - reflexivity.
  - reflexivity.
  - reflexivity.
  - intros [].
  - discriminate.
  - cbn. auto.
  - discriminate.
  - reflexivity.
  - discriminate.
Defined.

End SkillGraphWindowProperties.
